(** * avs-device-sdk: attachment hand-off, directive staging and keyword detection

    A shallow embedding of
    - [AttachmentManager] (AttachmentManager.cpp): the promise/future slot map
      and its time-ordered eviction index;
    - the [MockCapabilityAgent] recorder of CapabilityAgentTest.cpp and the
      staged directive lifecycle it is driven through;
    - the string helpers and the [MockAttachmentManager] of
      CapabilityAgentTest.cpp;
    - [KittAiKeyWordDetector] (KittAiKeyWordDetector.cpp).  *)

From Stdlib Require Import ZArith String Ascii Sorted.
From stdpp Require Import gmap strings list fin_maps pretty.

Local Open Scope Z_scope.

(** ** std::promise / std::future, as the attachment manager uses them *)

(** The error conditions of [std::future_errc]. *)
Inductive future_errc : Set :=
  | broken_promise
  | future_already_retrieved
  | promise_already_satisfied
  | no_state.

(** A call either returns or leaves through a [std::future_error]; the
    manager's members keep whatever was written before the throw. *)
Inductive outcome (A : Type) : Type :=
  | Returned (a : A)
  | Thrown (e : future_errc).
Arguments Returned {A} a.
Arguments Thrown {A} e.

(** The shared state behind one promise and the future obtained from it. *)
Inductive shared_state (Stream : Type) : Type :=
  | Pending
  | Ready (v : Stream)
  | Broken (e : future_errc).
Arguments Pending {Stream}.
Arguments Ready {Stream} v.
Arguments Broken {Stream} e.

(** What a consumer sees on [future::get]. *)
Inductive future_result (Stream : Type) : Type :=
  | Blocks
  | Value (v : Stream)
  | Raises (e : future_errc).
Arguments Blocks {Stream}.
Arguments Value {Stream} v.
Arguments Raises {Stream} e.

(** A [std::promise]: a reference to its shared state, and whether
    [get_future] has been called on it. *)
Record promise : Set := Promise { p_state : nat; p_retrieved : bool }.

(** A [std::future]: a reference to the shared state. *)
Definition future : Set := nat.

Module AttachmentManager.

Section Manager.

(** [std::shared_ptr<std::iostream>]: only the identity of the handle matters. *)
Context {Stream : Type}.

(** Ticks of [std::chrono::steady_clock] in one minute (the clock's period is
    implementation defined). *)
Variable ticks_per_minute : Z.

(** AttachmentManager.h is not part of the sources at hand: [m_timeStamps] is
    an ordered container keyed by time point, either [std::map] (a key that is
    already present is not inserted again) or [std::multimap]. *)
Variable unique_keys : bool.

(** The members of [AttachmentManager], together with the shared states that
    its promises and the futures handed out refer to. *)
Record t : Type := Build {
  m_timeout : Z;                          (* std::chrono::minutes *)
  m_attachments : gmap string promise;    (* attachment id -> promise *)
  m_timeStamps : list (Z * string);       (* ordered by time point, oldest first *)
  shared_states : list (shared_state Stream)
}.

(** [AttachmentManager::AttachmentManager(timeout)] *)
Definition create (timeout : Z) : t :=
  {| m_timeout := timeout; m_attachments := ∅; m_timeStamps := [];
     shared_states := [] |}.

(** [future::get], read off the shared state. *)
Definition future_get (s : t) (f : future) : future_result Stream :=
  match shared_states s !! (f : nat) with
  | Some (Ready v) => Value v
  | Some (Broken e) => Raises e
  | _ => Blocks
  end.

(** [~promise]: a shared state that is not ready yet receives
    [broken_promise]. *)
Definition abandon (k : nat) (heap : list (shared_state Stream))
  : list (shared_state Stream) :=
  match heap !! k with
  | Some Pending => <[k := Broken broken_promise]> heap
  | _ => heap
  end.

(** [m_attachments.erase(id)]: removes the entry and destroys its promise. *)
Definition erase (id : string)
    (st : gmap string promise * list (shared_state Stream))
  : gmap string promise * list (shared_state Stream) :=
  match st.1 !! id with
  | Some p => (delete id st.1, abandon (p_state p) st.2)
  | None => st
  end.

(** [createAttachmentPromiseHelperLocked]: a promise with a new shared state
    is stored when the id has none.  (The promise that [operator[]] default
    constructs is replaced at once and never had a future.) *)
Definition createAttachmentPromiseHelperLocked (attachmentId : string) (s : t) : t :=
  match m_attachments s !! attachmentId with
  | Some _ => s
  | None =>
      {| m_timeout := m_timeout s;
         m_attachments :=
           <[attachmentId := Promise (length (shared_states s)) false]> (m_attachments s);
         m_timeStamps := m_timeStamps s;
         shared_states := shared_states s ++ [Pending] |}
  end.

(** [createAttachmentReader]: [m_attachments[attachmentId].get_future()].
    [get_future] throws when the future was already retrieved.  After the
    helper the id always has a promise, so the last branch is never taken. *)
Definition createAttachmentReader (attachmentId : string) (s : t)
  : outcome future * t :=
  let s1 := createAttachmentPromiseHelperLocked attachmentId s in
  match m_attachments s1 !! attachmentId with
  | Some p =>
      if p_retrieved p then (Thrown future_already_retrieved, s1)
      else (Returned (p_state p),
            {| m_timeout := m_timeout s1;
               m_attachments :=
                 <[attachmentId := Promise (p_state p) true]> (m_attachments s1);
               m_timeStamps := m_timeStamps s1;
               shared_states := shared_states s1 |})
  | None => (Thrown no_state, s1)
  end.

(** [std::chrono::duration_cast<std::chrono::minutes>(currentTime - t)]:
    integer division truncating toward zero. *)
Definition timeGap (currentTime t : Z) : Z :=
  Z.quot (currentTime - t) ticks_per_minute.

(** [m_timeStamps.insert(std::make_pair(currentTime, attachmentId))]: the
    pair goes after every entry whose key is not greater; with unique keys an
    equal key leaves the container as it is. *)
Fixpoint ts_insert (e : Z * string) (idx : list (Z * string)) : list (Z * string) :=
  match idx with
  | [] => [e]
  | x :: rest =>
      if e.1 <? x.1 then e :: x :: rest
      else if unique_keys && (x.1 =? e.1) then x :: rest
      else x :: ts_insert e rest
  end.

(** The loop condition [timeGap >= m_timeout] on one entry of the index. *)
Definition expired (timeout currentTime : Z) (x : Z * string) : bool :=
  timeout <=? timeGap currentTime x.1.

(** The eviction loop of [createAttachment]: from [m_timeStamps.begin()],
    erase the attachment and the time stamp while the gap has reached the
    timeout; stop at the first entry that has not. *)
Fixpoint evict (timeout currentTime : Z) (idx : list (Z * string))
    (st : gmap string promise * list (shared_state Stream))
  : list (Z * string) * (gmap string promise * list (shared_state Stream)) :=
  match idx with
  | [] => ([], st)
  | x :: rest =>
      if expired timeout currentTime x
      then evict timeout currentTime rest (erase x.2 st)
      else (idx, st)
  end.

(** [promise::set_value]: throws when the shared state already holds a value
    or an exception.  (A promise of the map always has a shared state; the
    last branch is there for references that were never allocated.) *)
Definition set_value (p : promise) (v : Stream) (heap : list (shared_state Stream))
  : outcome unit * list (shared_state Stream) :=
  match heap !! p_state p with
  | Some Pending => (Returned tt, <[p_state p := Ready v]> heap)
  | Some _ => (Thrown promise_already_satisfied, heap)
  | None => (Thrown no_state, heap)
  end.

(** [createAttachment]; [currentTime] is the reading of
    [std::chrono::steady_clock::now()]. *)
Definition createAttachment (attachmentId : string) (attachment : Stream)
    (currentTime : Z) (s : t) : outcome unit * t :=
  let s1 := createAttachmentPromiseHelperLocked attachmentId s in
  let idx := ts_insert (currentTime, attachmentId) (m_timeStamps s1) in
  let '(idx', (atts, heap)) :=
    evict (m_timeout s1) currentTime idx (m_attachments s1, shared_states s1) in
  match atts !! attachmentId with
  | Some p =>
      let '(r, heap') := set_value p attachment heap in
      (r, {| m_timeout := m_timeout s1; m_attachments := atts;
             m_timeStamps := idx'; shared_states := heap' |})
  | None =>
      (Returned tt, {| m_timeout := m_timeout s1; m_attachments := atts;
                       m_timeStamps := idx'; shared_states := heap |})
  end.

(** [releaseAttachment]: [m_attachments.erase(attachmentId)]. *)
Definition releaseAttachment (attachmentId : string) (s : t) : t :=
  let '(atts, heap) := erase attachmentId (m_attachments s, shared_states s) in
  {| m_timeout := m_timeout s; m_attachments := atts;
     m_timeStamps := m_timeStamps s; shared_states := heap |}.

(** Calls on the manager, and the state they leave behind. *)
Inductive call : Type :=
  | CreateAttachmentReader (attachmentId : string)
  | CreateAttachment (attachmentId : string) (attachment : Stream) (currentTime : Z)
  | ReleaseAttachment (attachmentId : string).

Definition step (s : t) (c : call) : t :=
  match c with
  | CreateAttachmentReader id => (createAttachmentReader id s).2
  | CreateAttachment id a now => (createAttachment id a now s).2
  | ReleaseAttachment id => releaseAttachment id s
  end.

Definition run (cs : list call) (s : t) : t := fold_left step cs s.

(** The entries the eviction loop visits and erases, in the order it meets
    them, and the entries it leaves in the index. *)
Fixpoint expired_prefix (timeout currentTime : Z) (idx : list (Z * string))
  : list (Z * string) :=
  match idx with
  | [] => []
  | x :: rest =>
      if expired timeout currentTime x
      then x :: expired_prefix timeout currentTime rest
      else []
  end.

Fixpoint drop_expired (timeout currentTime : Z) (idx : list (Z * string))
  : list (Z * string) :=
  match idx with
  | [] => []
  | x :: rest =>
      if expired timeout currentTime x
      then drop_expired timeout currentTime rest
      else idx
  end.

(** Erasing the attachments of a run of index entries, first to last. *)
Definition erase_all (l : list (Z * string))
    (st : gmap string promise * list (shared_state Stream))
  : gmap string promise * list (shared_state Stream) :=
  fold_left (fun st x => erase x.2 st) l st.

(** The index is ordered by time point, oldest first. *)
Definition oldest_first (idx : list (Z * string)) : Prop :=
  StronglySorted (fun x y => x.1 <= y.1) idx.

(** Every promise in the map refers to an allocated shared state. *)
Definition well_formed (s : t) : Prop :=
  map_Forall (fun _ p => (p_state p < length (shared_states s))%nat) (m_attachments s).

(** The slot of [attachmentId] is fulfilled with [v]. *)
Definition fulfilled (s : t) (attachmentId : string) (p : promise) (v : Stream) : Prop :=
  m_attachments s !! attachmentId = Some p
  /\ shared_states s !! p_state p = Some (Ready v).

(** The index names no entry of [id], and the slot of [id] is present on the
    shared state [k]. *)
Definition unindexed_slot (id : string) (k : nat) (s : t) : Prop :=
  (forall e, In e (m_timeStamps s) -> e.2 ≠ id)
  /\ exists p, m_attachments s !! id = Some p /\ p_state p = k.

End Manager.

(** [steady_clock] ticks per minute where the clock counts nanoseconds. *)
Definition nanoseconds_per_minute : Z := 60000000000.

End AttachmentManager.

(** ** The staged directive lifecycle, driven through MockCapabilityAgent *)

Module CapabilityAgent.

(** [MockCapabilityAgent::FunctionCalled] *)
Inductive FunctionCalled : Set :=
  | NONE
  | HANDLE_DIRECTIVE_IMMEDIATELY
  | PREHANDLE_DIRECTIVE
  | HANDLE_DIRECTIVE
  | CANCEL_DIRECTIVE.

(** What [AVSDirective::create] is given in the tests: the header fields and
    the payload. *)
Record AVSDirective : Set := Directive {
  d_namespace : string;
  d_name : string;
  d_messageId : string;
  d_dialogRequestId : string;
  d_payload : string
}.

(** The states of a directive that has been admitted to a handler. *)
Inductive lifecycle : Set := PreHandled | Handled.

(** Modelled from the spec: the per-directive record the [CapabilityAgent]
    base class keeps (CapabilityAgent.cpp and CapabilityAgent.h are not under
    src/): the current state and the directive value, kept from pre-handling
    on. *)
Record DirectiveLifecycleRecord : Set := Record_ {
  r_state : lifecycle;
  r_directive : AVSDirective
}.

(** The agent: the records of the base class, the [m_functionCalled] flag of
    the mock, and the sequence of calls that reached the mock's overrides
    (oldest first), which the flag alone cannot tell apart. *)
Record t : Set := Build {
  m_directives : gmap string DirectiveLifecycleRecord;
  m_functionCalled : FunctionCalled;
  calls : list (FunctionCalled * string)
}.

(** [MockCapabilityAgent::MockCapabilityAgent]: [m_functionCalled{NONE}]. *)
Definition create : t :=
  {| m_directives := ∅; m_functionCalled := NONE; calls := [] |}.

(** The four overrides of the mock: each one sets [m_functionCalled]. *)
Definition mock_called (f : FunctionCalled) (messageId : string) (s : t) : t :=
  {| m_directives := m_directives s;
     m_functionCalled := f;
     calls := calls s ++ [(f, messageId)] |}.

Definition mock_handleDirectiveImmediately (d : AVSDirective) : t -> t :=
  mock_called HANDLE_DIRECTIVE_IMMEDIATELY (d_messageId d).
Definition mock_preHandleDirective (d : AVSDirective) : t -> t :=
  mock_called PREHANDLE_DIRECTIVE (d_messageId d).
Definition mock_handleDirective (d : AVSDirective) : t -> t :=
  mock_called HANDLE_DIRECTIVE (d_messageId d).
Definition mock_cancelDirective (d : AVSDirective) : t -> t :=
  mock_called CANCEL_DIRECTIVE (d_messageId d).

(** [MockCapabilityAgent::waitForFunctionCalls]: the flag once it is not
    [NONE], and [NONE] when the wait runs out. *)
Definition waitForFunctionCalls (s : t) : FunctionCalled := m_functionCalled s.

Definition set_directives (m : gmap string DirectiveLifecycleRecord) (s : t) : t :=
  {| m_directives := m; m_functionCalled := m_functionCalled s; calls := calls s |}.

(** Modelled from the spec: [CapabilityAgent::handleDirectiveImmediately]
    (CapabilityAgent.cpp is not under src/): the handler is invoked directly,
    with no result tracking and no further lifecycle calls. *)
Definition handleDirectiveImmediately (d : AVSDirective) (s : t) : t :=
  mock_handleDirectiveImmediately d s.

(** Modelled from the spec: [CapabilityAgent::preHandleDirective]
    (CapabilityAgent.cpp is not under src/): the directive is retained under
    its message id and the handler's pre-handling is invoked. *)
Definition preHandleDirective (d : AVSDirective) (s : t) : t :=
  mock_preHandleDirective d
    (set_directives (<[d_messageId d := Record_ PreHandled d]> (m_directives s)) s).

(** Modelled from the spec: [CapabilityAgent::handleDirective]
    (CapabilityAgent.cpp is not under src/): true, and the handler's handling
    is invoked, when the record of the message id is in the pre-handled
    state, which this call takes to the handled state (the only step the
    lifecycle has out of pre-handled besides cancellation); false, with
    nothing invoked and nothing changed, when there is no record or the
    record has been handled already. *)
Definition handleDirective (messageId : string) (s : t) : bool * t :=
  match m_directives s !! messageId with
  | Some (Record_ PreHandled d) =>
      (true,
       mock_handleDirective d
         (set_directives (<[messageId := Record_ Handled d]> (m_directives s)) s))
  | Some (Record_ Handled _) | None => (false, s)
  end.

(** Modelled from the spec: [CapabilityAgent::cancelDirective]
    (CapabilityAgent.cpp is not under src/): delivered to the handler only for
    a directive that has been pre-handled, whose record is then destroyed; a
    no-op otherwise. *)
Definition cancelDirective (messageId : string) (s : t) : t :=
  match m_directives s !! messageId with
  | Some r =>
      mock_cancelDirective (r_directive r)
        (set_directives (delete messageId (m_directives s)) s)
  | None => s
  end.

(** The terminal outcomes a handler reports. *)
Inductive DirectiveResult : Set :=
  | Completed
  | Failed (reason : string).

(** Modelled from the spec: the terminal report (the result sink of the
    tests, [MockResult], does nothing by itself): after it the record of the
    message id is removed; a second report finds none and is ignored. *)
Definition reportResult (messageId : string) (r : DirectiveResult) (s : t) : t :=
  set_directives (delete messageId (m_directives s)) s.

(** The calls into the agent. *)
Inductive call : Set :=
  | HandleDirectiveImmediately (d : AVSDirective)
  | PreHandleDirective (d : AVSDirective)
  | HandleDirective (messageId : string)
  | CancelDirective (messageId : string)
  | ReportResult (messageId : string) (r : DirectiveResult).

Definition step (s : t) (c : call) : t :=
  match c with
  | HandleDirectiveImmediately d => handleDirectiveImmediately d s
  | PreHandleDirective d => preHandleDirective d s
  | HandleDirective m => (handleDirective m s).2
  | CancelDirective m => cancelDirective m s
  | ReportResult m r => reportResult m r s
  end.

Definition run (cs : list call) (s : t) : t := fold_left step cs s.

(** [preHandleDirective] was issued for the message id somewhere in the
    calls. *)
Definition prehandle_issued (messageId : string) (cs : list call) : Prop :=
  exists d, In (PreHandleDirective d) cs /\ d_messageId d = messageId.

(** The message id is staged after the calls: the last of its pre-handle,
    cancel and terminal-report calls is a pre-handle. *)
Fixpoint staged_from (b : bool) (messageId : string) (cs : list call) : bool :=
  match cs with
  | [] => b
  | PreHandleDirective d :: rest =>
      staged_from (if decide (d_messageId d = messageId) then true else b) messageId rest
  | CancelDirective m :: rest | ReportResult m _ :: rest =>
      staged_from (if decide (m = messageId) then false else b) messageId rest
  | _ :: rest => staged_from b messageId rest
  end.

Definition staged : string -> list call -> bool := staged_from false.

(** The record of the message id is in the pre-handled state. *)
Definition is_prehandled (messageId : string) (s : t) : bool :=
  match m_directives s !! messageId with
  | Some (Record_ PreHandled _) => true
  | Some (Record_ Handled _) | None => false
  end.

(** A pre-handled directive with the message id is waiting to be handled
    after the calls: the last of its pre-handle, handle, cancel and
    terminal-report calls is a pre-handle. *)
Fixpoint prehandled_from (b : bool) (messageId : string) (cs : list call) : bool :=
  match cs with
  | [] => b
  | PreHandleDirective d :: rest =>
      prehandled_from (if decide (d_messageId d = messageId) then true else b)
        messageId rest
  | HandleDirective m :: rest | CancelDirective m :: rest
  | ReportResult m _ :: rest =>
      prehandled_from (if decide (m = messageId) then false else b) messageId rest
  | HandleDirectiveImmediately _ :: rest => prehandled_from b messageId rest
  end.

Definition prehandled : string -> list call -> bool := prehandled_from false.

(** Every record is filed under the message id of its directive. *)
Definition keyed (s : t) : Prop :=
  map_Forall (fun m r => d_messageId (r_directive r) = m) (m_directives s).

End CapabilityAgent.

(** ** The string helpers of CapabilityAgentTest.cpp *)

Module CapabilityAgentTest.

(** [std::string::find(pattern, pos)]; [None] is [npos]. *)
Definition find (pattern searchString : string) (pos : option nat) : option nat :=
  match pos with
  | Some n => Stdlib.Strings.String.index n pattern searchString
  | None => None
  end.

(** [CapabilityAgentTest::findStringFromStart] *)
Definition findStringFromStart (pattern searchString : string) : string :=
  match find pattern searchString (Some O) with
  | None => EmptyString
  | Some foundPattern => substring 0 foundPattern searchString
  end.

(** [CapabilityAgentTest::findStringTillEnd] *)
Definition findStringTillEnd (pattern searchString : string) (pos : option nat)
  : string :=
  match find pattern searchString pos with
  | None => EmptyString
  | Some foundPattern =>
      substring foundPattern (String.length searchString - foundPattern) searchString
  end.

End CapabilityAgentTest.

(** ** Consistency of the slots of the attachment manager *)

Module AttachmentSlots.
Import AttachmentManager.

Section Slots.

Context {Stream : Type}.

(** Distinct ids hold promises with distinct shared states, and the shared
    state of every promise in the map is pending or ready. *)
Definition consistent_slots
    (st : gmap string promise * list (shared_state Stream)) : Prop :=
  (forall i j p q, st.1 !! i = Some p -> st.1 !! j = Some q ->
                   p_state p = p_state q -> i = j)
  /\ (forall i p, st.1 !! i = Some p ->
                  st.2 !! p_state p = Some Pending
                  \/ exists v, st.2 !! p_state p = Some (Ready v)).

Definition consistent (s : t (Stream:=Stream)) : Prop :=
  consistent_slots (m_attachments s, shared_states s).

(** The id a call is made for. *)
Definition call_id (c : call (Stream:=Stream)) : string :=
  match c with
  | CreateAttachmentReader id => id
  | CreateAttachment id _ _ => id
  | ReleaseAttachment id => id
  end.

(** Ticks per minute of the clock and the kind of the index, as for the
    manager. *)
Variable ticks_per_minute : Z.
Variable unique_keys : bool.

(** What the loop of [createAttachment id'] at time [now] leaves of the map
    and the shared states, before [set_value]. *)
Definition scanned (id' : string) (now : Z) (s : t (Stream:=Stream))
  : gmap string promise * list (shared_state Stream) :=
  erase_all
    (expired_prefix ticks_per_minute (m_timeout s) now
       (ts_insert unique_keys (now, id') (m_timeStamps s)))
    (m_attachments (createAttachmentPromiseHelperLocked id' s),
     shared_states (createAttachmentPromiseHelperLocked id' s)).

End Slots.

End AttachmentSlots.

(** ** MockAttachmentManager of CapabilityAgentTest.cpp *)

Module MockAttachmentManager.

Section Mock.

Context {Stream : Type}.

(** The mock has no members; what remains of its calls are the shared states
    of the promises it made. *)
Definition t : Type := list (shared_state Stream).

(** [createAttachmentReader]: a local promise, its future, and the end of the
    promise when the function returns. *)
Definition createAttachmentReader (attachmentId : string) (h : t) : future * t :=
  let k := length h in
  (k, AttachmentManager.abandon k (h ++ [Pending])).

(** [createAttachment] and [releaseAttachment]: default no-op. *)
Definition createAttachment (attachmentId : string) (attachment : Stream) (h : t) : t := h.
Definition releaseAttachment (attachmentId : string) (h : t) : t := h.

Definition future_get (h : list (shared_state Stream)) (f : future)
  : future_result Stream :=
  match h !! (f : nat) with
  | Some (Ready v) => Value v
  | Some (Broken e) => Raises e
  | _ => Blocks
  end.

Inductive call : Type :=
  | CreateAttachmentReader (attachmentId : string)
  | CreateAttachment (attachmentId : string) (attachment : Stream)
  | ReleaseAttachment (attachmentId : string).

Definition step (h : t) (c : call) : t :=
  match c with
  | CreateAttachmentReader id => (createAttachmentReader id h).2
  | CreateAttachment id a => createAttachment id a h
  | ReleaseAttachment id => releaseAttachment id h
  end.

Definition run (cs : list call) (h : t) : t := fold_left step cs h.

End Mock.

End MockAttachmentManager.

(** ** KittAiKeyWordDetector.cpp *)

Module KittAiKeyWordDetector.

Definition HERTZ_PER_KILOHERTZ : Z := 1000.
Definition KITT_DELIMITER : string := ",".
Definition KITT_AI_SILENCE_DETECTION_RESULT : Z := -2.
Definition KITT_AI_ERROR_DETECTION_RESULT : Z := -1.
Definition KITT_AI_NO_DETECTION_RESULT : Z := 0.

(** [unsigned int] arithmetic. *)
Definition wrap32 (z : Z) : Z := z mod 2 ^ 32.

(** The fields of [avsCommon::AudioFormat] that the detector reads. *)
Record AudioFormat (Encoding Endianness : Type) : Type := Format {
  encoding : Encoding;
  endianness : Endianness;
  sampleRateHz : Z;
  sampleSizeInBits : Z;
  numChannels : Z
}.
Arguments Format {Encoding Endianness}.
Arguments encoding {Encoding Endianness}.
Arguments endianness {Encoding Endianness}.
Arguments sampleRateHz {Encoding Endianness}.
Arguments sampleSizeInBits {Encoding Endianness}.
Arguments numChannels {Encoding Endianness}.

(** What the engine ([snowboy::SnowboyDetect]) answers to [NumChannels],
    [SampleRate] and [BitsPerSample]. *)
Record Engine : Set := Engine_ {
  NumChannels : Z;
  SampleRate : Z;
  BitsPerSample : Z
}.

Record KittAiConfiguration (Sensitivity : Type) : Type := Configuration {
  modelFilePath : string;
  keyword : string;
  sensitivity : Sensitivity
}.
Arguments Configuration {Sensitivity}.
Arguments modelFilePath {Sensitivity}.
Arguments keyword {Sensitivity}.
Arguments sensitivity {Sensitivity}.

(** What the constructor computes: the member initialisers and the two
    strings handed to the engine. *)
Record Detector : Type := Detector_ {
  m_maxSamplesPerPush : Z;
  m_detectionResultsToKeyWords : gmap Z string;
  modelPaths : string;
  sensitivities : string
}.

Section Construction.

Context {Sensitivity : Type}.

(** [sensitivities << sensitivity]: the text the stream writes for one
    sensitivity. *)
Variable show_sensitivity : Sensitivity -> string.

(** [SIZE_MAX + 1]: [size_t] arithmetic is taken modulo this. *)
Variable size_modulus : Z.

(** The loop of the constructor, from index [i] on, over the configurations
    from [kittAiConfigurations.at(i)] on; [size] is
    [kittAiConfigurations.size()]. *)
Fixpoint configure (size i : Z) (rest : list (KittAiConfiguration Sensitivity))
    (acc : string * string * gmap Z string) : string * string * gmap Z string :=
  match rest with
  | [] => acc
  | c :: rest' =>
      let paths := acc.1.1 +:+ modelFilePath c in
      let sens := acc.1.2 +:+ show_sensitivity (sensitivity c) in
      let keywords := <[wrap32 (i + 1) := keyword c]> acc.2 in
      let last := bool_decide ((size - 1) mod size_modulus = i) in
      configure size (wrap32 (i + 1)) rest'
        (if last then paths else paths +:+ KITT_DELIMITER,
         if last then sens else sens +:+ KITT_DELIMITER,
         keywords)
  end.

(** The constructor: [m_maxSamplesPerPush] and the loop over the
    configurations; [msToPushPerIteration] is the count of milliseconds. *)
Definition construct (sampleRate : Z)
    (kittAiConfigurations : list (KittAiConfiguration Sensitivity))
    (msToPushPerIteration : Z) : Detector :=
  let r := configure (Z.of_nat (length kittAiConfigurations)) 0
             kittAiConfigurations (EmptyString, EmptyString, ∅) in
  {| m_maxSamplesPerPush :=
       ((sampleRate / HERTZ_PER_KILOHERTZ) * msToPushPerIteration) mod size_modulus;
     m_detectionResultsToKeyWords := r.2;
     modelPaths := r.1.1;
     sensitivities := r.1.2 |}.

End Construction.

(** What [init] and [create] leave behind: the result, the messages logged in
    order, and whether the detection thread was started. *)
Record attempt (A : Type) : Type := Attempt {
  result : A;
  logged : list string;
  thread_started : bool
}.
Arguments Attempt {A}.
Arguments result {A}.
Arguments logged {A}.
Arguments thread_started {A}.

Section Creation.

(** [AudioFormat::Encoding] and [AudioFormat::Endianness] with the two values
    the detector names. *)
Context {Encoding Endianness : Type}.
Context `{EqDecision Encoding} `{EqDecision Endianness}.
Variable LPCM : Encoding.
Variable LITTLE : Endianness.

Definition KITT_AI_COMPATIBLE_ENCODING : Encoding := LPCM.
Definition KITT_AI_COMPATIBLE_ENDIANNESS : Endianness := LITTLE.

(** [isAudioFormatCompatibleWithKittAi]: the verdict and what is logged. *)
Definition isAudioFormatCompatibleWithKittAi (engine : Engine)
    (audioFormat : AudioFormat Encoding Endianness) : bool * list string :=
  if bool_decide (numChannels audioFormat ≠ NumChannels engine) then
    (false, ["Audio data number of channels does not meet Kitt.ai requirements of "
             +:+ pretty (NumChannels engine)])
  else if bool_decide (sampleRateHz audioFormat ≠ SampleRate engine) then
    (false, ["Audio data sample rate does not meet Kitt.ai requirements of "
             +:+ pretty (SampleRate engine)])
  else if bool_decide (sampleSizeInBits audioFormat ≠ BitsPerSample engine) then
    (false, ["Audio data bits per sample does not meet Kitt.ai requirements of "
             +:+ pretty (BitsPerSample engine)])
  else if bool_decide (endianness audioFormat ≠ KITT_AI_COMPATIBLE_ENDIANNESS) then
    (false, ["Audio data fed to Kitt.ai must be little endian"])
  else if bool_decide (encoding audioFormat ≠ KITT_AI_COMPATIBLE_ENCODING) then
    (false, ["Audio data fed to Kitt.ai must be LPCM encoded"])
  else (true, []).

(** [init]; [readerCreated] tells whether [m_stream->createReader] returned a
    reader. *)
Definition init (engine : Engine) (audioFormat : AudioFormat Encoding Endianness)
    (readerCreated : bool) : attempt bool :=
  let '(compatible, messages) := isAudioFormatCompatibleWithKittAi engine audioFormat in
  if negb compatible then Attempt false messages false
  else if negb readerCreated then
    Attempt false (messages ++ ["Unable to create Stream reader"]) false
  else Attempt true messages true.

(** [create]; [streamValid] tells whether the stream pointer is not null and
    [byteswappingRequired] is the answer of [isByteswappingRequired]. *)
Definition create {Sensitivity : Type} (show_sensitivity : Sensitivity -> string)
    (size_modulus : Z) (streamValid byteswappingRequired : bool) (engine : Engine)
    (audioFormat : AudioFormat Encoding Endianness) (readerCreated : bool)
    (kittAiConfigurations : list (KittAiConfiguration Sensitivity))
    (msToPushPerIteration : Z) : attempt (option Detector) :=
  if negb streamValid then
    Attempt None
      ["Kitt.ai key word detector must be initialized with a valid stream"] false
  else if byteswappingRequired then
    Attempt None ["Audio data endianness must match system endianness"] false
  else
    let detector := construct show_sensitivity size_modulus
                      (sampleRateHz audioFormat) kittAiConfigurations
                      msToPushPerIteration in
    let i := init engine audioFormat readerCreated in
    if negb (result i) then
      Attempt None (logged i ++ ["Unable to initialize Kitt.ai detector"])
        (thread_started i)
    else Attempt (Some detector) (logged i) (thread_started i).

End Creation.

(** *** The detection loop *)

Inductive KeyWordDetectorState : Set := ACTIVE | ERROR.

(** The calls the loop makes, in order. *)
Inductive action : Type :=
  | NotifyKeyWordDetectorStateObservers (state : KeyWordDetectorState)
  | ReadFromStream
  | RunDetection (wordsRead : Z)
  | NotifyKeyWordObservers (keyWord : string) (endIndex : Z)
  | Log (message : string)
  | CloseReader.

(** What the loop meets in one iteration: [m_isShuttingDown] at the loop
    test, what [readFromStream] reports, what the engine returns from
    [RunDetection], and what [m_streamReader->tell()] answers.  An answer to a
    call that the iteration does not make is not looked at. *)
Record iteration : Set := Iteration {
  isShuttingDown : bool;
  didErrorOccur : bool;
  wordsRead : Z;
  detectionResult : Z;
  tell : Z
}.

(** Whether the loop has been left, or the iterations given have run out
    with the loop still going. *)
Inductive status : Set := Finished | Running.

(** The [while] loop of [detectionLoop]. *)
Fixpoint iterate (keyWords : gmap Z string) (inputs : list iteration)
  : list action * status :=
  match inputs with
  | [] => ([], Running)
  | x :: rest =>
      if isShuttingDown x then ([], Finished)
      else if didErrorOccur x then ([ReadFromStream], Finished)
      else if 0 <? wordsRead x then
        let heard := [ReadFromStream;
                      NotifyKeyWordDetectorStateObservers ACTIVE;
                      RunDetection (wordsRead x)] in
        let r := detectionResult x in
        if 0 <? r then
          match keyWords !! r with
          | None =>
              (heard ++ [Log "Unable to get keyword that was detected";
                         NotifyKeyWordDetectorStateObservers ERROR],
               Finished)
          | Some keyWord =>
              let '(acts, st) := iterate keyWords rest in
              (heard ++ NotifyKeyWordObservers keyWord (tell x) :: acts, st)
          end
        else if bool_decide (r = KITT_AI_ERROR_DETECTION_RESULT) then
          (heard ++ [Log "Error occurred with KittAi Engine";
                     NotifyKeyWordDetectorStateObservers ERROR],
           Finished)
        else if bool_decide (r = KITT_AI_SILENCE_DETECTION_RESULT) then
          let '(acts, st) := iterate keyWords rest in (heard ++ acts, st)
        else if bool_decide (r = KITT_AI_NO_DETECTION_RESULT) then
          let '(acts, st) := iterate keyWords rest in (heard ++ acts, st)
        else
          (heard ++ [Log ("Unexpected negative return from KittAi Engine: "
                          +:+ pretty r);
                     NotifyKeyWordDetectorStateObservers ERROR],
           Finished)
      else
        let '(acts, st) := iterate keyWords rest in (ReadFromStream :: acts, st)
  end.

(** [detectionLoop]: the notification before the loop, the loop, and the
    closing of the reader once the loop is left. *)
Definition detectionLoop (keyWords : gmap Z string) (inputs : list iteration)
  : list action * status :=
  let '(acts, st) := iterate keyWords inputs in
  (NotifyKeyWordDetectorStateObservers ACTIVE :: acts
     ++ match st with Finished => [CloseReader] | Running => [] end,
   st).

(** The iteration makes the loop stop. *)
Definition stops (keyWords : gmap Z string) (x : iteration) : bool :=
  isShuttingDown x
  || didErrorOccur x
  || ((0 <? wordsRead x)
      && (if 0 <? detectionResult x
          then bool_decide (keyWords !! detectionResult x = None)
          else negb (bool_decide (detectionResult x = KITT_AI_SILENCE_DETECTION_RESULT)
                     || bool_decide (detectionResult x = KITT_AI_NO_DETECTION_RESULT)))).

(** The key word observers are told of this iteration's result. *)
Definition reported (keyWords : gmap Z string) (x : iteration)
  : option (string * Z) :=
  if negb (isShuttingDown x) && negb (didErrorOccur x)
     && (0 <? wordsRead x) && (0 <? detectionResult x)
  then (fun k => (k, tell x)) <$> keyWords !! detectionResult x
  else None.

(** The key word notifications among the calls. *)
Definition keyWordNotifications (acts : list action) : list (string * Z) :=
  omap (fun a => match a with
                 | NotifyKeyWordObservers k e => Some (k, e)
                 | _ => None
                 end) acts.

(** The calls of an iteration after which the loop goes on. *)
Definition passing_calls (keyWords : gmap Z string) (x : iteration) : list action :=
  if 0 <? wordsRead x then
    [ReadFromStream;
     NotifyKeyWordDetectorStateObservers ACTIVE;
     RunDetection (wordsRead x)]
    ++ match reported keyWords x with
       | Some (k, e) => [NotifyKeyWordObservers k e]
       | None => []
       end
  else [ReadFromStream].

(** The calls of an iteration that makes the loop stop. *)
Definition stopping_calls (x : iteration) : list action :=
  if isShuttingDown x then []
  else if didErrorOccur x then [ReadFromStream]
  else
    [ReadFromStream;
     NotifyKeyWordDetectorStateObservers ACTIVE;
     RunDetection (wordsRead x);
     Log (if 0 <? detectionResult x
          then "Unable to get keyword that was detected"
          else if bool_decide (detectionResult x = KITT_AI_ERROR_DETECTION_RESULT)
               then "Error occurred with KittAi Engine"
               else "Unexpected negative return from KittAi Engine: "
                    +:+ pretty (detectionResult x));
     NotifyKeyWordDetectorStateObservers ERROR].

End KittAiKeyWordDetector.

(** * Properties of the attachment manager *)

Module AttachmentManagerFacts.
Import AttachmentManager.

Section Facts.

Context {Stream : Type}.
Variable ticks_per_minute : Z.
Variable unique_keys : bool.

Local Abbreviation heap := (list (shared_state Stream)).
Local Abbreviation slots := (gmap string promise * list (shared_state Stream))%type.
Local Abbreviation evict := (evict (Stream:=Stream) ticks_per_minute).
Local Abbreviation expired := (expired ticks_per_minute).
Local Abbreviation expired_prefix := (expired_prefix ticks_per_minute).
Local Abbreviation drop_expired := (drop_expired ticks_per_minute).
Local Abbreviation timeGap := (timeGap ticks_per_minute).
Local Abbreviation ts_insert := (ts_insert unique_keys).
Local Abbreviation createAttachment := (createAttachment (Stream:=Stream) ticks_per_minute unique_keys).
Local Abbreviation step := (step (Stream:=Stream) ticks_per_minute unique_keys).
Local Abbreviation run := (run (Stream:=Stream) ticks_per_minute unique_keys).

(** *** Shared states under [abandon] and [erase] *)

Lemma abandon_length k (h : heap) : length (abandon k h) = length h.
Proof.
  unfold abandon. destruct (h !! k) as [[| |]|]; auto using length_insert.
Qed.

Lemma abandon_lookup_ne k j (h : heap) : k ≠ j -> abandon k h !! j = h !! j.
Proof.
  intros Hkj. unfold abandon.
  destruct (h !! k) as [[| |]|]; auto using list_lookup_insert_ne.
Qed.

Lemma abandon_ready k j v (h : heap) :
  abandon k h !! j = Some (Ready v) <-> h !! j = Some (Ready v).
Proof.
  destruct (decide (k = j)) as [->|Hkj]; [|by rewrite abandon_lookup_ne].
  unfold abandon. destruct (h !! j) as [[| |]|] eqn:Hj; try by rewrite Hj.
  rewrite list_lookup_insert_eq; [|by eapply lookup_lt_Some].
  split; intros; simplify_eq.
Qed.

Lemma abandon_pending k (h : heap) :
  h !! k = Some Pending -> abandon k h !! k = Some (Broken broken_promise).
Proof.
  intros Hk. unfold abandon. rewrite Hk.
  apply list_lookup_insert_eq. by eapply lookup_lt_Some.
Qed.

Lemma erase_lookup_ne id id' (st : slots) :
  id ≠ id' -> (erase id st).1 !! id' = st.1 !! id'.
Proof.
  intros Hne. unfold erase. destruct (st.1 !! id); [|done].
  by apply lookup_delete_ne.
Qed.

Lemma erase_lookup_eq id (st : slots) : (erase id st).1 !! id = None.
Proof.
  unfold erase. destruct (st.1 !! id) eqn:Hid; [|done].
  apply lookup_delete_eq.
Qed.

Lemma erase_lookup_Some id id' p (st : slots) :
  (erase id st).1 !! id' = Some p -> st.1 !! id' = Some p.
Proof.
  destruct (decide (id = id')) as [->|Hne].
  - by rewrite erase_lookup_eq.
  - by rewrite erase_lookup_ne.
Qed.

Lemma erase_length id (st : slots) : length (erase id st).2 = length st.2.
Proof.
  unfold erase. destruct (st.1 !! id); [|done]. apply abandon_length.
Qed.

Lemma erase_ready id j v (st : slots) :
  (erase id st).2 !! j = Some (Ready v) <-> st.2 !! j = Some (Ready v).
Proof.
  unfold erase. destruct (st.1 !! id); [|done]. apply abandon_ready.
Qed.

Lemma erase_insert_ne id id' p (a : gmap string promise) (h : heap) :
  id ≠ id' ->
  erase id (<[id' := p]> a, h) = (<[id' := p]> (erase id (a, h)).1, (erase id (a, h)).2).
Proof.
  intros Hne. unfold erase. simpl. rewrite lookup_insert_ne; [|done].
  destruct (a !! id); simpl; [|done].
  by rewrite delete_insert_ne.
Qed.

Lemma erase_bounded n id (st : slots) :
  map_Forall (fun _ p => (p_state p < n)%nat) st.1 ->
  map_Forall (fun _ p => (p_state p < n)%nat) (erase id st).1.
Proof.
  intros Hb i p Hi. apply erase_lookup_Some in Hi. by eapply Hb.
Qed.

Lemma erase_lookup_fresh n k id (st : slots) :
  map_Forall (fun _ p => (p_state p < n)%nat) st.1 -> (n <= k)%nat ->
  (erase id st).2 !! k = st.2 !! k.
Proof.
  intros Hb Hk. unfold erase. destruct (st.1 !! id) as [p|] eqn:Hid; [|done].
  simpl. apply abandon_lookup_ne. apply Hb in Hid. simpl in Hid. lia.
Qed.

(** *** [erase_all] *)

Lemma erase_all_cons x l (st : slots) :
  erase_all (x :: l) st = erase_all l (erase x.2 st).
Proof. reflexivity. Qed.

Lemma erase_all_app l1 l2 (st : slots) :
  erase_all (l1 ++ l2) st = erase_all l2 (erase_all l1 st).
Proof. apply fold_left_app. Qed.

Lemma erase_all_lookup_Some l id p (st : slots) :
  (erase_all l st).1 !! id = Some p -> st.1 !! id = Some p.
Proof.
  revert st. induction l as [|x l IH]; intros st; [done|].
  rewrite erase_all_cons. intros H. apply IH in H. by eapply erase_lookup_Some.
Qed.

Lemma erase_all_lookup_notin l id (st : slots) :
  (forall e, In e l -> e.2 ≠ id) -> (erase_all l st).1 !! id = st.1 !! id.
Proof.
  revert st. induction l as [|x l IH]; intros st Hl; [done|].
  rewrite erase_all_cons, IH by (intros; apply Hl; by right).
  apply erase_lookup_ne. apply Hl. by left.
Qed.

Lemma erase_all_lookup_in l e (st : slots) :
  In e l -> (erase_all l st).1 !! e.2 = None.
Proof.
  revert st. induction l as [|x l IH]; intros st; [done|].
  rewrite erase_all_cons. intros [->|Hin]; [|by apply IH].
  destruct ((erase_all l (erase e.2 st)).1 !! e.2) eqn:H; [|done].
  apply erase_all_lookup_Some in H. by rewrite erase_lookup_eq in H.
Qed.

Lemma erase_all_length l (st : slots) : length (erase_all l st).2 = length st.2.
Proof.
  revert st. induction l as [|x l IH]; intros st; [done|].
  by rewrite erase_all_cons, IH, erase_length.
Qed.

Lemma erase_all_ready l j v (st : slots) :
  (erase_all l st).2 !! j = Some (Ready v) <-> st.2 !! j = Some (Ready v).
Proof.
  revert st. induction l as [|x l IH]; intros st; [done|].
  by rewrite erase_all_cons, IH, erase_ready.
Qed.

Lemma erase_all_insert l id p (a : gmap string promise) (h : heap) :
  (forall e, In e l -> e.2 ≠ id) ->
  erase_all l (<[id := p]> a, h)
  = (<[id := p]> (erase_all l (a, h)).1, (erase_all l (a, h)).2).
Proof.
  revert a h. induction l as [|x l IH]; intros a h Hl; [done|].
  rewrite !erase_all_cons, erase_insert_ne by (apply Hl; by left).
  destruct (erase x.2 (a, h)) as [a' h'] eqn:He. simpl.
  apply IH. intros; apply Hl; by right.
Qed.

Lemma erase_all_lookup_fresh n k l (st : slots) :
  map_Forall (fun _ p => (p_state p < n)%nat) st.1 -> (n <= k)%nat ->
  (erase_all l st).2 !! k = st.2 !! k.
Proof.
  revert st. induction l as [|x l IH]; intros st Hb Hk; [done|].
  rewrite erase_all_cons, IH by auto using erase_bounded.
  by eapply erase_lookup_fresh.
Qed.

Lemma erase_all_bounded n l (st : slots) :
  map_Forall (fun _ p => (p_state p < n)%nat) st.1 ->
  map_Forall (fun _ p => (p_state p < n)%nat) (erase_all l st).1.
Proof.
  intros Hb i p Hi. apply erase_all_lookup_Some in Hi. by eapply Hb.
Qed.

(** *** The eviction loop *)

Lemma evict_scan timeout now idx (st : slots) :
  evict timeout now idx st
  = (drop_expired timeout now idx, erase_all (expired_prefix timeout now idx) st).
Proof.
  revert st. induction idx as [|x idx IH]; intros st; [done|].
  simpl. destruct (expired timeout now x); [|done].
  by rewrite IH.
Qed.

Lemma expired_split timeout now idx :
  idx = expired_prefix timeout now idx ++ drop_expired timeout now idx.
Proof.
  induction idx as [|x idx IH]; [done|]. simpl.
  destruct (expired timeout now x); [|done]. simpl. by f_equal.
Qed.

Lemma expired_prefix_all timeout now idx :
  Forall (fun x => expired timeout now x = true) (expired_prefix timeout now idx).
Proof.
  induction idx as [|x idx IH]; simpl; [constructor|].
  destruct (expired timeout now x) eqn:Hx; by constructor.
Qed.

Lemma drop_expired_head timeout now idx x rest :
  drop_expired timeout now idx = x :: rest -> expired timeout now x = false.
Proof.
  induction idx as [|y idx IH]; simpl; [done|].
  destruct (expired timeout now y) eqn:Hy; [done|].
  intros; by simplify_eq.
Qed.

Lemma expired_prefix_In timeout now idx e :
  In e (expired_prefix timeout now idx) -> In e idx /\ expired timeout now e = true.
Proof.
  intros Hin. split.
  - rewrite (expired_split timeout now idx). apply in_or_app. by left.
  - by eapply (proj1 (List.Forall_forall _ _) (expired_prefix_all timeout now idx)).
Qed.

Lemma drop_expired_In timeout now idx e :
  In e (drop_expired timeout now idx) -> In e idx.
Proof.
  intros Hin. rewrite (expired_split timeout now idx). apply in_or_app. by right.
Qed.

Lemma expired_prefix_total timeout now idx :
  Forall (fun x => expired timeout now x = true) idx ->
  expired_prefix timeout now idx = idx /\ drop_expired timeout now idx = [].
Proof.
  induction 1 as [|x idx Hx _ [IH1 IH2]]; [done|]. simpl. rewrite Hx.
  by rewrite IH1, IH2.
Qed.

Lemma expired_prefix_app timeout now l1 l2 :
  Forall (fun x => expired timeout now x = true) l1 ->
  expired_prefix timeout now (l1 ++ l2) = l1 ++ expired_prefix timeout now l2.
Proof.
  induction 1 as [|x l1 Hx _ IH]; [done|]. simpl. by rewrite Hx, IH.
Qed.

Lemma expired_prefix_reaches timeout now l1 x l2 :
  Forall (fun y => expired timeout now y = true) l1 ->
  expired timeout now x = true ->
  expired_prefix timeout now (l1 ++ x :: l2)
  = l1 ++ x :: expired_prefix timeout now l2.
Proof.
  intros H1 Hx. rewrite expired_prefix_app by done. simpl. by rewrite Hx.
Qed.

(** *** Insertion into the index *)

Lemma ts_insert_In e x idx : In e (ts_insert x idx) -> e = x \/ In e idx.
Proof.
  induction idx as [|y idx IH]; simpl.
  - intros [<-|[]]. by left.
  - destruct (x.1 <? y.1).
    + intros [<-|H]; [by left|by right].
    + destruct (unique_keys && (y.1 =? x.1)); [by right|].
      intros [<-|H]; [right; by left|].
      destruct (IH H); [by left|right; by right].
Qed.

Lemma In_ts_insert e x idx : In e idx -> In e (ts_insert x idx).
Proof.
  induction idx as [|y idx IH]; simpl; [done|].
  destruct (x.1 <? y.1); [by right|].
  destruct (unique_keys && (y.1 =? x.1)); [done|].
  intros [<-|H]; [by left|right; auto].
Qed.

Lemma ts_insert_oldest_first x idx :
  oldest_first idx -> oldest_first (ts_insert x idx).
Proof.
  unfold oldest_first. induction 1 as [|y idx Hs IH Hy]; simpl.
  - repeat constructor.
  - destruct (x.1 <? y.1) eqn:Hlt.
    + apply Z.ltb_lt in Hlt. constructor; [by constructor|].
      constructor; [lia|]. eapply Forall_impl; [exact Hy|]. simpl. intros; lia.
    + apply Z.ltb_ge in Hlt.
      destruct (unique_keys && (y.1 =? x.1)); [by constructor|].
      constructor; [done|].
      apply List.Forall_forall. intros e He.
      apply ts_insert_In in He as [->|He]; [done|].
      by eapply (proj1 (List.Forall_forall _ _) Hy).
Qed.

Lemma drop_expired_oldest_first timeout now idx :
  oldest_first idx -> oldest_first (drop_expired timeout now idx).
Proof.
  unfold oldest_first. induction 1 as [|y idx Hs IH Hy]; simpl; [constructor|].
  destruct (expired timeout now y); [done|]. by constructor.
Qed.

(** *** [createAttachment], with the loop replaced by its summary *)

Lemma createAttachment_scan id a now (s : t) :
  createAttachment id a now s =
  let s1 := createAttachmentPromiseHelperLocked id s in
  let idx := ts_insert (now, id) (m_timeStamps s1) in
  let st := erase_all (expired_prefix (m_timeout s1) now idx)
              (m_attachments s1, shared_states s1) in
  match st.1 !! id with
  | Some p =>
      ((set_value p a st.2).1,
       Build (m_timeout s1) st.1 (drop_expired (m_timeout s1) now idx)
         (set_value p a st.2).2)
  | None =>
      (Returned tt,
       Build (m_timeout s1) st.1 (drop_expired (m_timeout s1) now idx) st.2)
  end.
Proof.
  unfold AttachmentManager.createAttachment. cbv zeta. rewrite evict_scan.
  destruct (erase_all _ _) as [atts h]. simpl.
  destruct (atts !! id); [|done]. by destruct (set_value _ _ _).
Qed.

Lemma helper_timeout id (s : t (Stream:=Stream)) :
  m_timeout (createAttachmentPromiseHelperLocked id s) = m_timeout s.
Proof.
  unfold createAttachmentPromiseHelperLocked. by destruct (m_attachments s !! id).
Qed.

Lemma helper_timeStamps id (s : t (Stream:=Stream)) :
  m_timeStamps (createAttachmentPromiseHelperLocked id s) = m_timeStamps s.
Proof.
  unfold createAttachmentPromiseHelperLocked. by destruct (m_attachments s !! id).
Qed.

Lemma helper_present id (s : t (Stream:=Stream)) :
  is_Some (m_attachments (createAttachmentPromiseHelperLocked id s) !! id).
Proof.
  unfold createAttachmentPromiseHelperLocked.
  destruct (m_attachments s !! id) eqn:Hid; simpl; [by rewrite Hid|].
  rewrite lookup_insert_eq. by eexists.
Qed.

Lemma helper_lookup_ne id id' (s : t (Stream:=Stream)) :
  id ≠ id' ->
  m_attachments (createAttachmentPromiseHelperLocked id s) !! id'
  = m_attachments s !! id'.
Proof.
  intros Hne. unfold createAttachmentPromiseHelperLocked.
  destruct (m_attachments s !! id); simpl; [done|]. by apply lookup_insert_ne.
Qed.

Lemma helper_ready id k v (s : t (Stream:=Stream)) :
  shared_states (createAttachmentPromiseHelperLocked id s) !! k = Some (Ready v)
  <-> shared_states s !! k = Some (Ready v).
Proof.
  unfold createAttachmentPromiseHelperLocked.
  destruct (m_attachments s !! id); simpl; [done|]. split.
  - intros H. destruct (decide (k < length (shared_states s))%nat).
    + by rewrite lookup_app_l in H.
    + rewrite lookup_app_r in H by lia.
      destruct (k - length (shared_states s))%nat; by simplify_eq/=.
  - intros H. rewrite lookup_app_l; [done|]. by eapply lookup_lt_Some.
Qed.

Lemma timeGap_now now : timeGap now now = 0.
Proof. unfold AttachmentManager.timeGap. by rewrite Z.sub_diag. Qed.

(** No entry of [attachmentId] is erased by a scan at [now] when none of its
    time stamps has reached the timeout. *)
Lemma prefix_spares id now (s : t (Stream:=Stream)) :
  0 < m_timeout s ->
  (forall e, In e (m_timeStamps s) -> e.2 = id -> timeGap now e.1 < m_timeout s) ->
  forall e,
    In e (expired_prefix (m_timeout s) now (ts_insert (now, id) (m_timeStamps s))) ->
    e.2 ≠ id.
Proof.
  intros Hpos Hfresh e He Heq.
  apply expired_prefix_In in He as [Hin Hexp].
  unfold AttachmentManager.expired in Hexp. apply Z.leb_le in Hexp.
  apply ts_insert_In in Hin as [->|Hin].
  - simpl in Hexp. rewrite timeGap_now in Hexp. lia.
  - specialize (Hfresh e Hin Heq). lia.
Qed.

(** C3. Starting without a slot for the id, with a positive timeout and no
    time stamp of the id that has reached it at the time of the provide:
    [createAttachmentReader] then [createAttachment], and [createAttachment]
    then [createAttachmentReader], both return, hand out the same future and
    end in the same manager state, in which that future resolves to the
    data. *)
Theorem attachment_commutativity (s : t (Stream:=Stream)) id data now :
  well_formed s ->
  m_attachments s !! id = None ->
  0 < m_timeout s ->
  (forall e, In e (m_timeStamps s) -> e.2 = id -> timeGap now e.1 < m_timeout s) ->
  exists f s',
    (exists s1, createAttachmentReader id s = (Returned f, s1)
                /\ createAttachment id data now s1 = (Returned tt, s'))
    /\ (exists s2, createAttachment id data now s = (Returned tt, s2)
                   /\ createAttachmentReader id s2 = (Returned f, s'))
    /\ future_get s' f = Value data.
Proof.
  intros Hwf Hnone Hpos Hfresh.
  pose proof (prefix_spares id now s Hpos Hfresh) as Hspare.
  set (k := length (shared_states s)).
  set (idx := ts_insert (now, id) (m_timeStamps s)) in *.
  set (pre := expired_prefix (m_timeout s) now idx) in *.
  set (st := erase_all pre (m_attachments s, shared_states s ++ [Pending])).
  assert (Hk : st.2 !! k = Some Pending).
  { unfold st. rewrite (erase_all_lookup_fresh k k) by (simpl; auto).
    simpl. unfold k. by rewrite lookup_app_r, Nat.sub_diag by lia. }
  assert (Hlen : (k < length st.2)%nat).
  { by eapply lookup_lt_Some. }
  exists k,
    (Build (m_timeout s) (<[id := Promise k true]> st.1)
       (drop_expired (m_timeout s) now idx) (<[k := Ready data]> st.2)).
  split; [|split].
  - eexists. split.
    + unfold createAttachmentReader, createAttachmentPromiseHelperLocked.
      rewrite Hnone. simpl. rewrite lookup_insert_eq. simpl.
      rewrite insert_insert_eq. reflexivity.
    + rewrite createAttachment_scan.
      unfold createAttachmentPromiseHelperLocked. simpl.
      rewrite lookup_insert_eq. simpl. fold idx. fold pre.
      rewrite erase_all_insert by done. fold st. simpl.
      rewrite lookup_insert_eq. unfold set_value. simpl.
      unfold k in Hk |- *. by rewrite Hk.
  - eexists. split.
    + rewrite createAttachment_scan.
      unfold createAttachmentPromiseHelperLocked. rewrite Hnone. simpl.
      fold idx. fold pre. rewrite erase_all_insert by done. fold st. simpl.
      rewrite lookup_insert_eq. unfold set_value. simpl.
      unfold k in Hk |- *. rewrite Hk. reflexivity.
    + unfold createAttachmentReader, createAttachmentPromiseHelperLocked.
      simpl. rewrite lookup_insert_eq. simpl. rewrite lookup_insert_eq. simpl.
      by rewrite insert_insert_eq.
  - unfold future_get. simpl. by rewrite list_lookup_insert_eq.
Qed.

(** *** Invariants of every state reached from a new manager *)

Lemma set_value_length p v (h : heap) : length (set_value p v h).2 = length h.
Proof.
  unfold set_value. destruct (h !! p_state p) as [[| |]|]; simpl; auto using length_insert.
Qed.

Lemma create_well_formed timeout : well_formed (create (Stream:=Stream) timeout).
Proof. unfold well_formed. simpl. apply map_Forall_empty. Qed.

Lemma helper_well_formed id (s : t (Stream:=Stream)) :
  well_formed s -> well_formed (createAttachmentPromiseHelperLocked id s).
Proof.
  unfold well_formed, createAttachmentPromiseHelperLocked. intros Hwf.
  destruct (m_attachments s !! id); simpl; [done|].
  apply map_Forall_insert_2; simpl.
  - rewrite length_app. simpl. lia.
  - intros i p Hi. apply Hwf in Hi. simpl in Hi. rewrite length_app. lia.
Qed.

Lemma createAttachmentReader_well_formed id (s : t (Stream:=Stream)) :
  well_formed s -> well_formed (createAttachmentReader id s).2.
Proof.
  intros Hwf. apply (helper_well_formed id) in Hwf.
  unfold createAttachmentReader.
  destruct (m_attachments _ !! id) as [p|] eqn:Hid; [|done].
  destruct (p_retrieved p); [done|]. simpl.
  unfold well_formed. simpl. apply map_Forall_insert_2; [|done].
  by apply Hwf in Hid.
Qed.

Lemma createAttachment_well_formed id a now (s : t (Stream:=Stream)) :
  well_formed s -> well_formed (createAttachment id a now s).2.
Proof.
  intros Hwf. apply (helper_well_formed id) in Hwf.
  rewrite createAttachment_scan. cbv zeta.
  set (s1 := createAttachmentPromiseHelperLocked id s) in *.
  set (st := erase_all _ _).
  assert (Hb : map_Forall (fun _ p => (p_state p < length st.2)%nat) st.1).
  { unfold st. rewrite erase_all_length. by apply erase_all_bounded. }
  destruct (st.1 !! id); unfold well_formed; simpl; [|done].
  by rewrite set_value_length.
Qed.

Lemma releaseAttachment_well_formed id (s : t (Stream:=Stream)) :
  well_formed s -> well_formed (releaseAttachment id s).
Proof.
  intros Hwf. unfold releaseAttachment.
  pose proof (erase_bounded (length (shared_states s)) id
                (m_attachments s, shared_states s) Hwf) as Hb.
  pose proof (erase_length id (m_attachments s, shared_states s)) as Hl.
  destruct (erase id _) as [atts h]. unfold well_formed. simpl in *.
  by rewrite Hl.
Qed.

Lemma step_well_formed c (s : t (Stream:=Stream)) :
  well_formed s -> well_formed (step s c).
Proof.
  destruct c; simpl;
    auto using createAttachmentReader_well_formed,
      createAttachment_well_formed, releaseAttachment_well_formed.
Qed.

Lemma run_well_formed cs (s : t (Stream:=Stream)) :
  well_formed s -> well_formed (run cs s).
Proof.
  revert s. induction cs as [|c cs IH]; intros s Hwf; [done|].
  apply IH. by apply step_well_formed.
Qed.

Lemma createAttachment_timeStamps id a now (s : t (Stream:=Stream)) :
  m_timeStamps (createAttachment id a now s).2
  = drop_expired (m_timeout s) now (ts_insert (now, id) (m_timeStamps s)).
Proof.
  rewrite createAttachment_scan. cbv zeta.
  rewrite helper_timeout, helper_timeStamps.
  by destruct ((erase_all _ _).1 !! id).
Qed.

Lemma createAttachment_attachments id a now (s : t (Stream:=Stream)) :
  m_attachments (createAttachment id a now s).2
  = (erase_all
       (expired_prefix (m_timeout s) now (ts_insert (now, id) (m_timeStamps s)))
       (m_attachments (createAttachmentPromiseHelperLocked id s),
        shared_states (createAttachmentPromiseHelperLocked id s))).1.
Proof.
  rewrite createAttachment_scan. cbv zeta.
  rewrite helper_timeout, helper_timeStamps.
  by destruct ((erase_all _ _).1 !! id).
Qed.

Lemma createAttachmentReader_timeStamps id (s : t (Stream:=Stream)) :
  m_timeStamps (createAttachmentReader id s).2 = m_timeStamps s.
Proof.
  unfold createAttachmentReader.
  destruct (m_attachments _ !! id) as [p|]; [destruct (p_retrieved p)|];
    simpl; apply helper_timeStamps.
Qed.

Lemma releaseAttachment_timeStamps id (s : t (Stream:=Stream)) :
  m_timeStamps (releaseAttachment id s) = m_timeStamps s.
Proof. unfold releaseAttachment. by destruct (erase id _). Qed.

Lemma step_oldest_first c (s : t (Stream:=Stream)) :
  oldest_first (m_timeStamps s) -> oldest_first (m_timeStamps (step s c)).
Proof.
  intros Hs. destruct c; simpl.
  - by rewrite createAttachmentReader_timeStamps.
  - rewrite createAttachment_timeStamps.
    by apply drop_expired_oldest_first, ts_insert_oldest_first.
  - by rewrite releaseAttachment_timeStamps.
Qed.

Lemma run_oldest_first cs (s : t (Stream:=Stream)) :
  oldest_first (m_timeStamps s) -> oldest_first (m_timeStamps (run cs s)).
Proof.
  revert s. induction cs as [|c cs IH]; intros s Hs; [done|].
  apply IH. by apply step_oldest_first.
Qed.

(** *** A second producer, a second consumer, and release *)

(** C4, amended. On a slot that is already fulfilled, a further
    [createAttachment] leaves the first data in place for the reader. It is
    not a no-op: it records its time stamp and runs the scan, and then either
    the slot is still there and the call leaves through
    [promise_already_satisfied], or the scan has erased the slot and the call
    returns. *)
Theorem second_createAttachment_keeps_first_data
    (s : t (Stream:=Stream)) id p d1 d2 now :
  fulfilled s id p d1 ->
  exists r s',
    createAttachment id d2 now s = (r, s')
    /\ future_get s' (p_state p) = Value d1
    /\ m_timeStamps s'
       = drop_expired (m_timeout s) now (ts_insert (now, id) (m_timeStamps s))
    /\ ((r = Thrown promise_already_satisfied /\ m_attachments s' !! id = Some p)
        \/ (r = Returned tt /\ m_attachments s' !! id = None)).
Proof.
  intros [Hp Hd].
  rewrite createAttachment_scan. cbv zeta.
  unfold createAttachmentPromiseHelperLocked. rewrite Hp.
  remember (erase_all _ _) as st eqn:Hst.
  assert (Hready : st.2 !! p_state p = Some (Ready d1)).
  { rewrite Hst. by rewrite erase_all_ready. }
  destruct (st.1 !! id) as [p'|] eqn:Hid.
  - assert (p' = p) as ->.
    { rewrite Hst in Hid. apply erase_all_lookup_Some in Hid. simpl in Hid. congruence. }
    unfold set_value. rewrite Hready. simpl.
    do 2 eexists. split; [reflexivity|].
    unfold future_get. simpl. rewrite Hready. auto.
  - do 2 eexists. split; [reflexivity|].
    unfold future_get. simpl. rewrite Hready. auto.
Qed.

(** C5. When the slot of an id is pending and its future has been handed
    out, [releaseAttachment] removes the slot and the waiting future, which
    blocked before, reports [broken_promise]. *)
Theorem releaseAttachment_fails_waiting_reader (s : t (Stream:=Stream)) id f :
  m_attachments s !! id = Some (Promise f true) ->
  shared_states s !! f = Some Pending ->
  future_get s f = Blocks
  /\ future_get (releaseAttachment id s) f = Raises broken_promise
  /\ m_attachments (releaseAttachment id s) !! id = None.
Proof.
  intros Hp Hf. unfold future_get, releaseAttachment, erase. simpl.
  rewrite Hp, Hf. simpl. rewrite (abandon_pending _ _ Hf).
  by rewrite lookup_delete_eq.
Qed.

(** The future that [createAttachmentReader] returns is the one recorded in
    the slot as handed out. *)
Lemma createAttachmentReader_hands_out id f (s s' : t (Stream:=Stream)) :
  createAttachmentReader id s = (Returned f, s') ->
  m_attachments s' !! id = Some (Promise f true)
  /\ shared_states s' = shared_states (createAttachmentPromiseHelperLocked id s).
Proof.
  unfold createAttachmentReader.
  destruct (m_attachments _ !! id) as [p|]; [|done].
  destruct (p_retrieved p); [done|].
  intros [= <- <-]; simpl. by rewrite lookup_insert_eq.
Qed.

(** C9, amended. On a fulfilled slot the first [createAttachmentReader]
    returns a future that resolves to the fulfilled handle; once the future
    has been handed out, every further [createAttachmentReader] for the id
    leaves through [future_already_retrieved] and changes nothing. *)
Theorem createAttachmentReader_on_fulfilled_slot (s : t (Stream:=Stream)) id p d :
  fulfilled s id p d ->
  if p_retrieved p
  then createAttachmentReader id s = (Thrown future_already_retrieved, s)
  else exists s',
         createAttachmentReader id s = (Returned (p_state p), s')
         /\ future_get s' (p_state p) = Value d
         /\ fulfilled s' id (Promise (p_state p) true) d
         /\ createAttachmentReader id s' = (Thrown future_already_retrieved, s').
Proof.
  intros [Hp Hd]. unfold createAttachmentReader, createAttachmentPromiseHelperLocked.
  rewrite Hp. rewrite Hp. destruct (p_retrieved p) eqn:Hr; [done|].
  eexists. split; [reflexivity|]. unfold future_get, fulfilled. simpl.
  rewrite Hd, !lookup_insert_eq. simpl. rewrite lookup_insert_eq. auto.
Qed.

(** *** Timeout zero *)

Lemma ts_insert_self x idx :
  (unique_keys = true -> Forall (fun e => e.1 ≠ x.1) idx) ->
  In x (ts_insert x idx).
Proof.
  induction idx as [|y idx IH]; simpl; intros Hu; [by left|].
  destruct (x.1 <? y.1); [by left|].
  destruct unique_keys eqn:Huk; simpl.
  - specialize (Hu eq_refl). inversion Hu as [|? ? Hy Hrest]; subst.
    destruct (y.1 =? x.1) eqn:Heq; [apply Z.eqb_eq in Heq; done|].
    right. apply IH. by intros _.
  - right. apply IH. intros; discriminate.
Qed.

Lemma timeGap_nonneg now t :
  0 < ticks_per_minute -> t <= now -> 0 <= timeGap now t.
Proof.
  intros Hpos Hle. unfold AttachmentManager.timeGap.
  apply Z.quot_pos; lia.
Qed.

(** C6. With a timeout of zero and a clock that has not gone back behind the
    recorded time points, [createAttachment] returns with the index empty:
    every slot that the index named, and the slot of the call itself, has
    been erased, and no shared state has become ready.  (With unique keys
    the time point read must not be a key already: the call's pair then
    enters the index.) *)
Theorem zero_timeout_disables_caching (s : t (Stream:=Stream)) id a now :
  0 < ticks_per_minute ->
  m_timeout s = 0 ->
  Forall (fun e => e.1 <= now) (m_timeStamps s) ->
  (unique_keys = true -> Forall (fun e => e.1 ≠ now) (m_timeStamps s)) ->
  exists s',
    createAttachment id a now s = (Returned tt, s')
    /\ m_timeStamps s' = []
    /\ m_attachments s' !! id = None
    /\ (forall e, In e (m_timeStamps s) -> m_attachments s' !! e.2 = None)
    /\ (forall k v, shared_states s' !! k = Some (Ready v) ->
                    shared_states s !! k = Some (Ready v)).
Proof.
  intros Hpos Hzero Hpast Huniq.
  rewrite createAttachment_scan. cbv zeta.
  rewrite helper_timeout, helper_timeStamps, Hzero.
  set (idx := ts_insert (now, id) (m_timeStamps s)).
  assert (Hall : Forall (fun x => expired 0 now x = true) idx).
  { apply List.Forall_forall. intros e He.
    unfold AttachmentManager.expired. apply Z.leb_le.
    apply ts_insert_In in He as [->|He].
    - simpl. by rewrite timeGap_now.
    - apply timeGap_nonneg; [done|].
      by apply (proj1 (List.Forall_forall _ _) Hpast). }
  destruct (expired_prefix_total 0 now idx Hall) as [-> ->].
  remember (erase_all idx _) as st eqn:Hst.
  assert (Hid : st.1 !! id = None).
  { rewrite Hst. apply (erase_all_lookup_in idx (now, id)).
    by apply ts_insert_self. }
  rewrite Hid. eexists. split; [reflexivity|]. simpl.
  repeat split; [done| |].
  - intros e He. rewrite Hst. apply erase_all_lookup_in.
    by apply In_ts_insert.
  - intros k v Hk. rewrite Hst in Hk.
    apply erase_all_ready in Hk. simpl in Hk. by apply helper_ready in Hk.
Qed.

Lemma step_timeout c (s : t (Stream:=Stream)) : m_timeout (step s c) = m_timeout s.
Proof.
  destruct c; simpl.
  - unfold createAttachmentReader.
    destruct (m_attachments _ !! _) as [p|]; [destruct (p_retrieved p)|];
      simpl; apply helper_timeout.
  - rewrite createAttachment_scan. cbv zeta.
    destruct ((erase_all _ _).1 !! _); simpl; apply helper_timeout.
  - unfold releaseAttachment. by destruct (erase _ _).
Qed.

(** Between calls a manager with timeout zero keeps no time stamp at all. *)
Lemma zero_timeout_index_empty cs (s : t (Stream:=Stream)) :
  m_timeout s = 0 -> m_timeStamps s = [] -> m_timeStamps (run cs s) = [].
Proof.
  revert s. induction cs as [|c cs IH]; intros s Hz He; [done|].
  apply IH; [by rewrite step_timeout|].
  destruct c; simpl.
  - by rewrite createAttachmentReader_timeStamps.
  - rewrite createAttachment_timeStamps, Hz, He. simpl.
    unfold AttachmentManager.expired. simpl. by rewrite timeGap_now.
  - by rewrite releaseAttachment_timeStamps.
Qed.

(** *** Eviction order *)

Lemma timeGap_antitone now t1 t2 :
  0 < ticks_per_minute -> t1 <= t2 -> timeGap now t2 <= timeGap now t1.
Proof.
  intros Hpos Hle. unfold AttachmentManager.timeGap.
  apply Z.quot_le_mono; lia.
Qed.

Lemma expired_older timeout now (x y : Z * string) :
  0 < ticks_per_minute -> x.1 <= y.1 ->
  expired timeout now y = true -> expired timeout now x = true.
Proof.
  unfold AttachmentManager.expired. intros Hpos Hle Hy.
  apply Z.leb_le in Hy. apply Z.leb_le.
  pose proof (timeGap_antitone now _ _ Hpos Hle). lia.
Qed.

Lemma oldest_first_app (l1 l2 : list (Z * string)) x :
  oldest_first (l1 ++ x :: l2) ->
  Forall (fun e => e.1 <= x.1) l1 /\ Forall (fun e => x.1 <= e.1) l2.
Proof.
  unfold oldest_first. induction l1 as [|y l1 IH]; simpl; intros Hs.
  - apply StronglySorted_inv in Hs as [_ Hx]. by split.
  - apply StronglySorted_inv in Hs as [Hs Hy]. destruct (IH Hs) as [H1 H2].
    split; [|done]. constructor; [|done].
    apply (proj1 (List.Forall_forall _ _) Hy). apply in_or_app. right. by left.
Qed.

Lemma oldest_first_order (idx : list (Z * string)) tA a tB b :
  oldest_first idx -> In (tA, a) idx -> In (tB, b) idx -> tA < tB ->
  exists l1 l2 l3, idx = l1 ++ (tA, a) :: l2 ++ (tB, b) :: l3.
Proof.
  intros Hs HA HB Hlt.
  apply in_split in HB as (m1 & m2 & ->).
  destruct (oldest_first_app _ _ _ Hs) as [_ Hafter].
  apply in_app_or in HA as [HA|[HA|HA]].
  - apply in_split in HA as (l1 & l2 & ->).
    exists l1, l2, m2. by rewrite <- app_assoc.
  - simplify_eq. lia.
  - apply (proj1 (List.Forall_forall _ _) Hafter) in HA. simpl in HA. lia.
Qed.

Lemma drop_expired_within timeout now idx :
  0 < ticks_per_minute -> oldest_first idx ->
  Forall (fun x => expired timeout now x = false) (drop_expired timeout now idx).
Proof.
  intros Hpos. unfold oldest_first.
  induction 1 as [|y idx Hs IH Hy]; simpl; [constructor|].
  destruct (expired timeout now y) eqn:Hexp; [done|].
  constructor; [done|].
  apply List.Forall_forall. intros e He.
  destruct (expired timeout now e) eqn:Hee; [|done].
  rewrite (expired_older timeout now y e) in Hexp; auto.
  by apply (proj1 (List.Forall_forall _ _) Hy).
Qed.

(** C7. The loop of [createAttachment] walks the index from its oldest entry,
    erases what it visits, and stops at the first entry whose gap has not
    reached the timeout; on an index ordered oldest first every entry left is
    within the timeout.  When the stamp of A is strictly older than the stamp
    of B and B has reached the timeout, A has reached it as well, both are
    visited in this scan with A before B, and after the call neither slot nor
    stamp remains. *)
Theorem eviction_oldest_first (s : t (Stream:=Stream)) id data now tA a tB b :
  0 < ticks_per_minute ->
  oldest_first (m_timeStamps s) ->
  In (tA, a) (m_timeStamps s) ->
  In (tB, b) (m_timeStamps s) ->
  tA < tB ->
  m_timeout s <= timeGap now tB ->
  let idx := ts_insert (now, id) (m_timeStamps s) in
  let visited := expired_prefix (m_timeout s) now idx in
  let kept := drop_expired (m_timeout s) now idx in
  let s' := (createAttachment id data now s).2 in
  (forall st, evict (m_timeout s) now idx st = (kept, erase_all visited st))
  /\ idx = visited ++ kept
  /\ Forall (fun x => expired (m_timeout s) now x = true) visited
  /\ Forall (fun x => expired (m_timeout s) now x = false) kept
  /\ m_timeout s <= timeGap now tA
  /\ (exists l1 l2 l3, visited = l1 ++ (tA, a) :: l2 ++ (tB, b) :: l3)
  /\ m_timeStamps s' = kept
  /\ m_attachments s' !! a = None
  /\ m_attachments s' !! b = None.
Proof.
  intros Hpos Hs HA HB Hlt HexpB idx visited kept s'.
  assert (Hs' : oldest_first idx) by by apply ts_insert_oldest_first.
  assert (HeB : expired (m_timeout s) now (tB, b) = true).
  { unfold AttachmentManager.expired. by apply Z.leb_le. }
  assert (HeA : expired (m_timeout s) now (tA, a) = true).
  { apply (expired_older _ _ (tA, a) (tB, b)); simpl; auto. lia. }
  assert (Hvis : exists l1 l2 l3, visited = l1 ++ (tA, a) :: l2 ++ (tB, b) :: l3).
  { destruct (oldest_first_order idx tA a tB b Hs'
                (In_ts_insert _ _ _ HA) (In_ts_insert _ _ _ HB) Hlt)
      as (l1 & l2 & m & Hidx).
    exists l1, l2, (expired_prefix (m_timeout s) now m).
    assert (Hidx' : idx = (l1 ++ (tA, a) :: l2) ++ (tB, b) :: m).
    { rewrite Hidx. apply (List.app_assoc l1 ((tA, a) :: l2) ((tB, b) :: m)). }
    unfold visited. rewrite Hidx' in Hs' |- *.
    destruct (oldest_first_app _ _ _ Hs') as [Hbefore _].
    rewrite expired_prefix_reaches.
    - symmetry. apply (List.app_assoc l1 ((tA, a) :: l2) ((tB, b) :: _)).
    - eapply Forall_impl; [exact Hbefore|]. simpl. intros e He.
      by apply (expired_older _ _ e (tB, b)).
    - done. }
  assert (Hgone : forall e, In e visited -> m_attachments s' !! e.2 = None).
  { intros e He. unfold s'. rewrite createAttachment_attachments.
    by apply erase_all_lookup_in. }
  destruct Hvis as (l1 & l2 & l3 & Hvis).
  repeat split.
  - intros st. apply evict_scan.
  - apply expired_split.
  - apply expired_prefix_all.
  - by apply drop_expired_within.
  - unfold AttachmentManager.expired in HeA. by apply Z.leb_le in HeA.
  - by exists l1, l2, l3.
  - apply createAttachment_timeStamps.
  - apply (Hgone (tA, a)). rewrite Hvis. apply in_or_app. right. by left.
  - apply (Hgone (tB, b)). rewrite Hvis. apply in_or_app. right. right.
    apply in_or_app. right. by left.
Qed.

(** *** Slots that only a reader has asked for *)

Lemma step_unindexed_slot id k c (s : t (Stream:=Stream)) :
  (forall a now, c ≠ CreateAttachment id a now) ->
  c ≠ ReleaseAttachment id ->
  unindexed_slot id k s -> unindexed_slot id k (step s c).
Proof.
  intros Hc Hr [Hidx (p & Hp & Hk)]. destruct c as [id'|id' a now|id']; simpl.
  - split; [by rewrite createAttachmentReader_timeStamps|].
    unfold createAttachmentReader.
    destruct (decide (id' = id)) as [->|Hne].
    + unfold createAttachmentPromiseHelperLocked. rewrite Hp, Hp.
      destruct (p_retrieved p); simpl; [by eauto|].
      rewrite lookup_insert_eq. by eauto.
    + pose proof (helper_lookup_ne id' id s Hne) as Hl.
      destruct (m_attachments _ !! id') as [q|]; [destruct (p_retrieved q)|];
        simpl; rewrite ?lookup_insert_ne by done; rewrite Hl; eauto.
  - assert (Hne : id' ≠ id) by (intros ->; by eapply Hc).
    assert (Hidx' : forall e, In e (ts_insert (now, id') (m_timeStamps s)) -> e.2 ≠ id).
    { intros e He. apply ts_insert_In in He as [->|He]; [done|by apply Hidx]. }
    split.
    + rewrite createAttachment_timeStamps. intros e He.
      apply drop_expired_In in He. by apply Hidx'.
    + rewrite createAttachment_attachments, erase_all_lookup_notin.
      * simpl. rewrite helper_lookup_ne by done. eauto.
      * intros e He. apply expired_prefix_In in He as [He _]. by apply Hidx'.
  - assert (Hne : id' ≠ id) by (by intros ->).
    split; [by rewrite releaseAttachment_timeStamps|].
    unfold releaseAttachment.
    pose proof (erase_lookup_ne id' id (m_attachments s, shared_states s) Hne) as Hl.
    destruct (erase id' _) as [atts h]. simpl in *. rewrite Hl. eauto.
Qed.

(** A manager on which [createAttachment] was never called for an id has no
    time stamp of that id. *)
Lemma never_provided_not_indexed id cs (s : t (Stream:=Stream)) :
  (forall e, In e (m_timeStamps s) -> e.2 ≠ id) ->
  (forall a now, ~ In (CreateAttachment id a now) cs) ->
  forall e, In e (m_timeStamps (run cs s)) -> e.2 ≠ id.
Proof.
  revert s. induction cs as [|c cs IH]; intros s Hidx Hcs; [done|].
  apply IH; [|intros a now Hin; apply (Hcs a now); by right].
  destruct c as [id'|id' a now|id']; simpl.
  - by rewrite createAttachmentReader_timeStamps.
  - rewrite createAttachment_timeStamps. intros e He.
    apply drop_expired_In, ts_insert_In in He as [->|He]; [|by apply Hidx].
    simpl. intros ->. apply (Hcs a now). by left.
  - by rewrite releaseAttachment_timeStamps.
Qed.

Lemma run_unindexed_slot id k cs (s : t (Stream:=Stream)) :
  (forall c, In c cs ->
     (forall a now, c ≠ CreateAttachment id a now) /\ c ≠ ReleaseAttachment id) ->
  unindexed_slot id k s -> unindexed_slot id k (run cs s).
Proof.
  revert s. induction cs as [|c cs IH]; intros s Hcs Hinv; [done|].
  apply IH; [intros; apply Hcs; by right|].
  destruct (Hcs c) as [Hc Hr]; [by left|]. by apply step_unindexed_slot.
Qed.

(** C10. [createAttachmentReader] leaves the index as it is. When the index
    names no entry of the id, the slot that the reader call leaves behind
    stays out of the index and stays in the map, on the same shared state,
    through every later call that is neither [createAttachment] nor
    [releaseAttachment] for this id, whatever the time points and the
    timeout; [releaseAttachment] removes it. *)
Theorem reader_only_slot_outlives_scans (s0 : t (Stream:=Stream)) id cs :
  (forall e, In e (m_timeStamps s0) -> e.2 ≠ id) ->
  (forall c, In c cs ->
     (forall a now, c ≠ CreateAttachment id a now) /\ c ≠ ReleaseAttachment id) ->
  let s1 := (createAttachmentReader id s0).2 in
  m_timeStamps s1 = m_timeStamps s0
  /\ (forall e, In e (m_timeStamps (run cs s1)) -> e.2 ≠ id)
  /\ (exists p p', m_attachments s1 !! id = Some p
                   /\ m_attachments (run cs s1) !! id = Some p'
                   /\ p_state p' = p_state p)
  /\ m_attachments (releaseAttachment id (run cs s1)) !! id = None.
Proof.
  intros Hidx Hcs s1.
  assert (Hts : m_timeStamps s1 = m_timeStamps s0)
    by apply createAttachmentReader_timeStamps.
  assert (Hslot : exists p, m_attachments s1 !! id = Some p).
  { unfold s1, createAttachmentReader.
    destruct (helper_present id s0) as [q Hq]. rewrite Hq.
    destruct (p_retrieved q); simpl; [by eauto|].
    rewrite lookup_insert_eq. by eauto. }
  destruct Hslot as [p Hp].
  assert (Hinv : unindexed_slot id (p_state p) s1).
  { split; [by rewrite Hts|by eauto]. }
  apply (run_unindexed_slot id (p_state p) cs s1 Hcs) in Hinv as [Hidx' (p' & Hp' & Hk)].
  repeat split; [done|done|by eauto|].
  unfold releaseAttachment.
  pose proof (erase_lookup_eq id (m_attachments (run cs s1), shared_states (run cs s1))) as He.
  by destruct (erase id _).
Qed.

End Facts.

(** *** The theorems at concrete managers *)

Abbreviation minute := nanoseconds_per_minute.

Lemma attachment_commutativity_witness :
  let s := run (Stream:=nat) minute false
             [CreateAttachment "B" 1%nat 0; CreateAttachmentReader "C"] (create 1) in
  well_formed s
  /\ m_attachments s !! "A1" = None
  /\ 0 < m_timeout s
  /\ (forall e, In e (m_timeStamps s) -> e.2 = "A1" ->
                AttachmentManager.timeGap minute 5 e.1 < m_timeout s)
  /\ exists f s',
       (exists s1, createAttachmentReader "A1" s = (Returned f, s1)
                   /\ createAttachment minute false "A1" 7%nat 5 s1 = (Returned tt, s'))
       /\ (exists s2, createAttachment minute false "A1" 7%nat 5 s = (Returned tt, s2)
                      /\ createAttachmentReader "A1" s2 = (Returned f, s'))
       /\ future_get s' f = Value 7%nat.
Proof.
  intros s.
  assert (H1 : well_formed s) by apply run_well_formed, create_well_formed.
  assert (H2 : m_attachments s !! "A1" = None) by (vm_compute; reflexivity).
  assert (H3 : 0 < m_timeout s) by (vm_compute; reflexivity).
  assert (H4 : forall e, In e (m_timeStamps s) -> e.2 = "A1" ->
                 AttachmentManager.timeGap minute 5 e.1 < m_timeout s).
  { intros e He Heq. vm_compute in He. destruct He as [<-|[]]. discriminate Heq. }
  repeat (split; [assumption|]).
  exact (attachment_commutativity minute false s "A1" 7%nat 5 H1 H2 H3 H4).
Defined.

(** C4 as stated fails: with a timeout of one minute, a second
    [createAttachment] for the same id five ticks after the first leaves
    through [promise_already_satisfied], for either kind of index, having
    changed the manager. *)
Lemma second_createAttachment_throws :
  Forall (fun unique_keys =>
    let s1 := (createAttachment (Stream:=nat) minute unique_keys "A1" 1%nat 0 (create 1)).2 in
    fulfilled s1 "A1" (Promise 0 false) 1%nat
    /\ (createAttachment minute unique_keys "A1" 2%nat 5 s1).1
       = Thrown promise_already_satisfied
    /\ m_timeStamps (createAttachment minute unique_keys "A1" 2%nat 5 s1).2
       = [(0, "A1"); (5, "A1")]
    /\ createAttachment minute unique_keys "A1" 2%nat 5 s1 ≠ (Returned tt, s1))
    [false; true].
Proof.
  repeat constructor; try (vm_compute; reflexivity);
    intros H; apply (f_equal fst) in H; vm_compute in H; discriminate H.
Qed.

Lemma second_createAttachment_keeps_first_data_witness :
  let s1 := (createAttachment (Stream:=nat) minute false "A1" 1%nat 0 (create 1)).2 in
  fulfilled s1 "A1" (Promise 0 false) 1%nat
  /\ exists r s',
       createAttachment minute false "A1" 2%nat 5 s1 = (r, s')
       /\ future_get s' 0%nat = Value 1%nat
       /\ m_timeStamps s'
          = AttachmentManager.drop_expired minute (m_timeout s1) 5
              (AttachmentManager.ts_insert false (5, "A1") (m_timeStamps s1))
       /\ ((r = Thrown promise_already_satisfied
            /\ m_attachments s' !! "A1" = Some (Promise 0 false))
           \/ (r = Returned tt /\ m_attachments s' !! "A1" = None)).
Proof.
  intros s1.
  assert (H : fulfilled s1 "A1" (Promise 0 false) 1%nat)
    by (split; vm_compute; reflexivity).
  split; [exact H|].
  exact (second_createAttachment_keeps_first_data minute false s1 "A1"
           (Promise 0 false) 1%nat 2%nat 5 H).
Defined.

Lemma releaseAttachment_fails_waiting_reader_witness :
  let s := (createAttachmentReader (Stream:=nat) "A1" (create 1)).2 in
  m_attachments s !! "A1" = Some (Promise 0 true)
  /\ shared_states s !! 0%nat = Some Pending
  /\ future_get s 0%nat = Blocks
  /\ future_get (releaseAttachment "A1" s) 0%nat = Raises broken_promise
  /\ m_attachments (releaseAttachment "A1" s) !! "A1" = None.
Proof.
  intros s.
  assert (H1 : m_attachments s !! "A1" = Some (Promise 0 true))
    by (vm_compute; reflexivity).
  assert (H2 : shared_states s !! 0%nat = Some Pending) by reflexivity.
  repeat (split; [assumption|]).
  exact (releaseAttachment_fails_waiting_reader s "A1" 0%nat H1 H2).
Defined.

(** C9 as stated fails: on a slot fulfilled with the handle [1], the first
    [createAttachmentReader] returns a future that resolves to it and the
    second one leaves through [future_already_retrieved]. *)
Lemma second_createAttachmentReader_throws :
  let s1 := (createAttachment (Stream:=nat) minute false "A1" 1%nat 0 (create 1)).2 in
  let r2 := createAttachmentReader "A1" s1 in
  fulfilled s1 "A1" (Promise 0 false) 1%nat
  /\ r2.1 = Returned 0%nat
  /\ future_get r2.2 0%nat = Value 1%nat
  /\ (createAttachmentReader "A1" r2.2).1 = Thrown future_already_retrieved.
Proof.
  repeat split; vm_compute; reflexivity.
Qed.

Lemma createAttachmentReader_on_fulfilled_slot_witness :
  let s1 := (createAttachment (Stream:=nat) minute false "A1" 1%nat 0 (create 1)).2 in
  fulfilled s1 "A1" (Promise 0 false) 1%nat
  /\ exists s',
       createAttachmentReader "A1" s1 = (Returned 0%nat, s')
       /\ future_get s' 0%nat = Value 1%nat
       /\ fulfilled s' "A1" (Promise 0 true) 1%nat
       /\ createAttachmentReader "A1" s' = (Thrown future_already_retrieved, s').
Proof.
  intros s1.
  assert (H : fulfilled s1 "A1" (Promise 0 false) 1%nat)
    by (split; vm_compute; reflexivity).
  split; [exact H|].
  exact (createAttachmentReader_on_fulfilled_slot s1 "A1" (Promise 0 false) 1%nat H).
Defined.

Lemma zero_timeout_disables_caching_witness :
  let s := (createAttachmentReader (Stream:=nat) "A1" (create 0)).2 in
  0 < minute
  /\ m_timeout s = 0
  /\ Forall (fun e => e.1 <= 5) (m_timeStamps s)
  /\ (true = true -> Forall (fun e => e.1 ≠ 5) (m_timeStamps s))
  /\ exists s',
       createAttachment minute true "A1" 7%nat 5 s = (Returned tt, s')
       /\ m_timeStamps s' = []
       /\ m_attachments s' !! "A1" = None
       /\ (forall e, In e (m_timeStamps s) -> m_attachments s' !! e.2 = None)
       /\ (forall k v, shared_states s' !! k = Some (Ready v) ->
                       shared_states s !! k = Some (Ready v)).
Proof.
  intros s.
  assert (H1 : 0 < minute) by reflexivity.
  assert (H2 : m_timeout s = 0) by reflexivity.
  assert (H3 : Forall (fun e => e.1 <= 5) (m_timeStamps s)) by constructor.
  assert (H4 : true = true -> Forall (fun e => e.1 ≠ 5) (m_timeStamps s))
    by (intros _; constructor).
  repeat (split; [assumption|]).
  exact (zero_timeout_disables_caching minute true s "A1" 7%nat 5 H1 H2 H3 H4).
Defined.

Lemma eviction_oldest_first_witness :
  let s := run (Stream:=nat) minute false
             [CreateAttachment "A" 1%nat 0; CreateAttachment "B" 2%nat minute]
             (create 2) in
  let now := 3 * minute in
  0 < minute
  /\ oldest_first (m_timeStamps s)
  /\ In (0, "A") (m_timeStamps s)
  /\ In (minute, "B") (m_timeStamps s)
  /\ 0 < minute
  /\ m_timeout s <= AttachmentManager.timeGap minute now minute
  /\ AttachmentManager.expired_prefix minute (m_timeout s) now
       (AttachmentManager.ts_insert false (now, "C") (m_timeStamps s))
     = [(0, "A"); (minute, "B")]
  /\ m_attachments (createAttachment minute false "C" 3%nat now s).2 !! "A" = None
  /\ m_attachments (createAttachment minute false "C" 3%nat now s).2 !! "B" = None.
Proof.
  intros s now.
  assert (H1 : 0 < minute) by reflexivity.
  assert (H2 : oldest_first (m_timeStamps s))
    by (apply run_oldest_first; constructor).
  assert (H3 : In (0, "A") (m_timeStamps s)) by (vm_compute; auto).
  assert (H4 : In (minute, "B") (m_timeStamps s)) by (vm_compute; auto).
  assert (H5 : m_timeout s <= AttachmentManager.timeGap minute now minute)
    by (vm_compute; discriminate).
  repeat (split; [assumption|]).
  pose proof (eviction_oldest_first minute false s "C" 3%nat now
                0 "A" minute "B" H1 H2 H3 H4 H1 H5) as H.
  cbv zeta in H. destruct H as (_ & _ & _ & _ & _ & _ & _ & HA & HB).
  split; [vm_compute; reflexivity|]. split; [exact HA|exact HB].
Defined.

Lemma reader_only_slot_outlives_scans_witness :
  let s0 := create (Stream:=nat) 1 in
  let cs := [CreateAttachment "B" 1%nat 0;
             CreateAttachment "C" 2%nat (2 * minute);
             ReleaseAttachment "B";
             CreateAttachmentReader "A1";
             CreateAttachment "D" 3%nat (9 * minute)] in
  let s1 := (createAttachmentReader "A1" s0).2 in
  (forall e, In e (m_timeStamps s0) -> e.2 ≠ "A1")
  /\ (forall c, In c cs ->
        (forall a now, c ≠ CreateAttachment "A1" a now) /\ c ≠ ReleaseAttachment "A1")
  /\ m_timeStamps s1 = m_timeStamps s0
  /\ (forall e, In e (m_timeStamps (run minute false cs s1)) -> e.2 ≠ "A1")
  /\ (exists p p', m_attachments s1 !! "A1" = Some p
                   /\ m_attachments (run minute false cs s1) !! "A1" = Some p'
                   /\ p_state p' = p_state p)
  /\ m_attachments (releaseAttachment "A1" (run minute false cs s1)) !! "A1" = None.
Proof.
  intros s0 cs s1.
  assert (H1 : forall e, In e (m_timeStamps s0) -> e.2 ≠ "A1") by (intros e []).
  assert (H2 : forall c, In c cs ->
             (forall a now, c ≠ CreateAttachment "A1" a now)
             /\ c ≠ ReleaseAttachment "A1").
  { intros c Hc. simpl in Hc.
    repeat (destruct Hc as [<-|Hc]; [split; [intros ? ?|]; discriminate|]).
    destruct Hc. }
  repeat (split; [assumption|]).
  exact (reader_only_slot_outlives_scans minute false s0 "A1" cs H1 H2).
Defined.

End AttachmentManagerFacts.

(** * Properties of the staged directive lifecycle *)

Module CapabilityAgentFacts.
Import CapabilityAgent.

Lemma step_keyed c s : keyed s -> keyed (step s c).
Proof.
  unfold keyed. intros Hk. destruct c as [d|d|m|m|m r]; simpl; try done.
  - by apply map_Forall_insert_2.
  - unfold handleDirective.
    destruct (m_directives s !! m) as [[[|] d]|] eqn:Hm; [|done|done].
    simpl. apply map_Forall_insert_2; [|done]. by apply Hk in Hm.
  - unfold cancelDirective. destruct (m_directives s !! m); [|done].
    simpl. by apply map_Forall_delete.
  - by apply map_Forall_delete.
Qed.

Lemma run_keyed cs s : keyed s -> keyed (run cs s).
Proof.
  revert s. induction cs as [|c cs IH]; intros s Hk; [done|].
  apply IH. by apply step_keyed.
Qed.

Lemma create_keyed : keyed create.
Proof. unfold keyed. simpl. apply map_Forall_empty. Qed.

(** The record of a message id after one call. *)
Lemma step_record m c s :
  is_Some (m_directives (step s c) !! m)
  <-> staged_from (bool_decide (is_Some (m_directives s !! m))) m [c] = true.
Proof.
  destruct c as [d|d|m'|m'|m' r]; simpl.
  - by rewrite bool_decide_eq_true.
  - destruct (decide (d_messageId d = m)) as [->|Hne].
    + rewrite lookup_insert_eq. split; [done|by eexists].
    + rewrite lookup_insert_ne by done. by rewrite bool_decide_eq_true.
  - rewrite bool_decide_eq_true. unfold handleDirective.
    destruct (m_directives s !! m') as [[[|] d]|] eqn:Hm'; simpl; [|done|done].
    destruct (decide (m' = m)) as [->|Hne].
    + rewrite lookup_insert_eq, Hm'. split; by eexists.
    + by rewrite lookup_insert_ne.
  - unfold cancelDirective.
    destruct (decide (m' = m)) as [->|Hne].
    + destruct (m_directives s !! m) as [r|] eqn:Hm; simpl.
      * rewrite lookup_delete_eq. split; [by intros [? ?]|done].
      * rewrite Hm. split; [by intros [? ?]|done].
    + rewrite bool_decide_eq_true.
      destruct (m_directives s !! m'); simpl; [|done].
      by rewrite lookup_delete_ne.
  - destruct (decide (m' = m)) as [->|Hne].
    + rewrite lookup_delete_eq. split; [by intros [? ?]|done].
    + rewrite lookup_delete_ne by done. by rewrite bool_decide_eq_true.
Qed.

Lemma staged_from_cons b m c cs :
  staged_from b m (c :: cs) = staged_from (staged_from b m [c]) m cs.
Proof. by destruct c. Qed.

Lemma run_record m cs s :
  is_Some (m_directives (run cs s) !! m)
  <-> staged_from (bool_decide (is_Some (m_directives s !! m))) m cs = true.
Proof.
  revert s. induction cs as [|c cs IH]; intros s.
  - simpl. by rewrite bool_decide_eq_true.
  - rewrite staged_from_cons. change (run (c :: cs) s) with (run cs (step s c)).
    rewrite IH. pose proof (step_record m c s) as Hc.
    destruct (staged_from _ m [c]).
    + rewrite bool_decide_eq_true_2; [done|]. by apply Hc.
    + rewrite bool_decide_eq_false_2; [done|]. intros H. apply Hc in H. done.
Qed.

Lemma staged_from_issued b m cs :
  staged_from b m cs = true -> b = true \/ prehandle_issued m cs.
Proof.
  revert b. induction cs as [|c cs IH]; intros b; [by left|].
  assert (Hweak : prehandle_issued m cs -> prehandle_issued m (c :: cs)).
  { intros (d & Hin & Hd). exists d. split; [by right|done]. }
  destruct c as [d|d|m'|m'|m' r]; simpl; intros H; apply IH in H.
  - destruct H; auto.
  - destruct (decide (d_messageId d = m)) as [Hd|Hd]; [|destruct H; auto].
    right. exists d. split; [by left|done].
  - destruct H; auto.
  - destruct (decide (m' = m)); destruct H; auto; done.
  - destruct (decide (m' = m)); destruct H; auto; done.
Qed.

Lemma create_record m : m_directives create !! m = None.
Proof. apply lookup_empty. Qed.

Lemma staged_record m cs :
  is_Some (m_directives (run cs create) !! m) <-> staged m cs = true.
Proof.
  rewrite run_record. unfold staged.
  rewrite bool_decide_eq_false_2; [done|].
  rewrite create_record. by intros [? ?].
Qed.

(** The lifecycle model against the tests of CapabilityAgentTest.cpp
    ([testCallToHandleImmediately], [testCallToPrehandleDirective],
    [testCallToHandleDirective], [testCallToHandleDirectiveWithNoPrehandle],
    [testCallToCancelDirective], [testCallToCancelDirectiveWithNoPrehandle]). *)
Example tests_of_CapabilityAgentTest_lifecycle :
  let directive := Directive "SpeechRecognizer" "StopCapture" "MessageId_Test"
                     "DialogRequestId_Test" "payload_Test" in
  waitForFunctionCalls (handleDirectiveImmediately directive create)
  = HANDLE_DIRECTIVE_IMMEDIATELY
  /\ waitForFunctionCalls (preHandleDirective directive create) = PREHANDLE_DIRECTIVE
  /\ (let r := handleDirective "MessageId_Test" (preHandleDirective directive create) in
      r.1 = true /\ waitForFunctionCalls r.2 = HANDLE_DIRECTIVE)
  /\ (handleDirective "MessageId_Test" create).1 = false
  /\ waitForFunctionCalls
       (cancelDirective "MessageId_Test" (preHandleDirective directive create))
     = CANCEL_DIRECTIVE
  /\ waitForFunctionCalls (cancelDirective "MessageId_Test" create) = NONE.
Proof. repeat split; vm_compute; reflexivity. Qed.

(** Whether a pre-handled record waits under a message id after one call. *)
Lemma step_is_prehandled m c s :
  is_prehandled m (step s c) = prehandled_from (is_prehandled m s) m [c].
Proof.
  unfold is_prehandled at 1 2. destruct c as [d|d|m'|m'|m' r]; simpl.
  - done.
  - destruct (decide (d_messageId d = m)) as [->|Hne].
    + by rewrite lookup_insert_eq.
    + by rewrite lookup_insert_ne.
  - unfold handleDirective.
    destruct (decide (m' = m)) as [->|Hne].
    + destruct (m_directives s !! m) as [[[|] d]|] eqn:Hm; simpl.
      * by rewrite lookup_insert_eq.
      * by rewrite Hm.
      * by rewrite Hm.
    + destruct (m_directives s !! m') as [[[|] d]|]; simpl; [|done|done].
      by rewrite lookup_insert_ne.
  - unfold cancelDirective.
    destruct (decide (m' = m)) as [->|Hne].
    + destruct (m_directives s !! m) as [r|] eqn:Hm; simpl.
      * by rewrite lookup_delete_eq.
      * by rewrite Hm.
    + destruct (m_directives s !! m'); simpl; [|done].
      by rewrite lookup_delete_ne.
  - destruct (decide (m' = m)) as [->|Hne].
    + by rewrite lookup_delete_eq.
    + by rewrite lookup_delete_ne.
Qed.

Lemma prehandled_from_cons b m c cs :
  prehandled_from b m (c :: cs) = prehandled_from (prehandled_from b m [c]) m cs.
Proof. by destruct c. Qed.

Lemma run_is_prehandled m cs s :
  is_prehandled m (run cs s) = prehandled_from (is_prehandled m s) m cs.
Proof.
  revert s. induction cs as [|c cs IH]; intros s; [done|].
  rewrite prehandled_from_cons. change (run (c :: cs) s) with (run cs (step s c)).
  by rewrite IH, step_is_prehandled.
Qed.

Lemma prehandled_from_issued b m cs :
  prehandled_from b m cs = true -> b = true \/ prehandle_issued m cs.
Proof.
  revert b. induction cs as [|c cs IH]; intros b H; [by left|].
  rewrite prehandled_from_cons in H. apply IH in H as [H|(d & Hin & Hd)].
  - destruct c as [d|d|m'|m'|m' r]; simpl in H; [by left| | | |].
    + destruct (decide (d_messageId d = m)) as [Hd|]; [|by left].
      right. exists d. split; [by left|done].
    + destruct (decide (m' = m)); [done|by left].
    + destruct (decide (m' = m)); [done|by left].
    + destruct (decide (m' = m)); [done|by left].
  - right. exists d. split; [by right|done].
Qed.

Lemma prehandled_is_prehandled m cs :
  is_prehandled m (run cs create) = prehandled m cs.
Proof. by rewrite run_is_prehandled. Qed.

(** C1. After any calls on a new agent, [handleDirective] for a message id
    returns true exactly when a matching pre-handled directive exists: the
    record of the message id is in the pre-handled state, which is the case
    exactly when [preHandleDirective] was issued for the message id and no
    handle, cancel or terminal report for it has followed the last such
    pre-handle. When it returns true, a pre-handle was issued for the message
    id before, the handler's handling is invoked once, for this message id,
    and the mock reports [HANDLE_DIRECTIVE]. When it returns false the agent
    is left as it was, so the handler's handling is not invoked; this is so
    in particular when no pre-handle was ever issued for the message id.
    Right after [preHandleDirective] for a directive, [handleDirective] for
    its message id returns true and the handling is invoked. *)
Theorem handleDirective_iff_prehandled cs m :
  let s := run cs create in
  ((handleDirective m s).1 = true
   <-> exists d, m_directives s !! m = Some (Record_ PreHandled d)
                 /\ d_messageId d = m)
  /\ ((handleDirective m s).1 = true <-> prehandled m cs = true)
  /\ ((handleDirective m s).1 = true ->
      prehandle_issued m cs
      /\ calls (handleDirective m s).2 = calls s ++ [(HANDLE_DIRECTIVE, m)]
      /\ waitForFunctionCalls (handleDirective m s).2 = HANDLE_DIRECTIVE)
  /\ ((handleDirective m s).1 = false -> (handleDirective m s).2 = s)
  /\ (~ prehandle_issued m cs -> handleDirective m s = (false, s))
  /\ (forall d, d_messageId d = m ->
      let r := handleDirective m (preHandleDirective d s) in
      r.1 = true
      /\ calls r.2 = calls s ++ [(PREHANDLE_DIRECTIVE, m); (HANDLE_DIRECTIVE, m)]
      /\ waitForFunctionCalls r.2 = HANDLE_DIRECTIVE).
Proof.
  intros s. pose proof (prehandled_is_prehandled m cs) as Hpre. fold s in Hpre.
  pose proof (run_keyed cs create create_keyed) as Hkey. fold s in Hkey.
  assert (Hissued : prehandled m cs = true -> prehandle_issued m cs).
  { intros H. apply prehandled_from_issued in H as [H|H]; done. }
  assert (Hlast : forall d, d_messageId d = m ->
            let r := handleDirective m (preHandleDirective d s) in
            r.1 = true
            /\ calls r.2 = calls s ++ [(PREHANDLE_DIRECTIVE, m); (HANDLE_DIRECTIVE, m)]
            /\ waitForFunctionCalls r.2 = HANDLE_DIRECTIVE).
  { intros d <-. unfold handleDirective, preHandleDirective. simpl.
    rewrite lookup_insert_eq. simpl. by rewrite <- List.app_assoc. }
  unfold is_prehandled in Hpre. unfold handleDirective.
  destruct (m_directives s !! m) as [[[|] d]|] eqn:Hm; simpl.
  - apply Hkey in Hm. simpl in Hm. rewrite Hm, <- Hpre.
    split; [split; [by exists d|done]|].
    split; [done|]. split; [auto|]. split; [done|].
    split; [|exact Hlast]. intros Hno. destruct Hno. auto.
  - rewrite <- Hpre.
    split; [split; [done|by intros (? & ? & _)]|].
    split; [done|]. split; [done|]. split; [done|]. split; [done|exact Hlast].
  - rewrite <- Hpre.
    split; [split; [done|by intros (? & ? & _)]|].
    split; [done|]. split; [done|]. split; [done|]. split; [done|exact Hlast].
Qed.

(** A cancel for a message id that is not staged changes nothing. *)
Lemma cancelDirective_not_staged cs m :
  staged m cs = false -> cancelDirective m (run cs create) = run cs create.
Proof.
  intros Hst. pose proof (staged_record m cs) as Hrec.
  unfold cancelDirective. destruct (m_directives _ !! m); [|done].
  destruct Hrec as [Hrec _]. rewrite Hrec in Hst; [done|by eexists].
Qed.

(** C2. After any calls on a new agent among which no pre-handle was issued
    for the message id, [cancelDirective] leaves the agent as it is: no
    override of the mock is reached and [waitForFunctionCalls] reports what it
    reported before. *)
Theorem cancelDirective_without_prehandle cs m :
  ~ prehandle_issued m cs ->
  let s := run cs create in
  cancelDirective m s = s
  /\ calls (cancelDirective m s) = calls s
  /\ waitForFunctionCalls (cancelDirective m s) = waitForFunctionCalls s.
Proof.
  intros Hno s.
  assert (Heq : cancelDirective m s = s).
  { apply cancelDirective_not_staged. destruct (staged m cs) eqn:Hst; [|done].
    apply staged_from_issued in Hst as [Hst|Hst]; done. }
  by rewrite Heq.
Qed.

Lemma cancelDirective_without_prehandle_witness :
  let d := Directive "SpeechRecognizer" "StopCapture" "Other_Id"
             "DialogRequestId_Test" "payload_Test" in
  let cs := [PreHandleDirective d; HandleDirective "Other_Id"] in
  let s := run cs create in
  ~ prehandle_issued "MessageId_Test" cs
  /\ cancelDirective "MessageId_Test" s = s
  /\ calls (cancelDirective "MessageId_Test" s) = calls s
  /\ waitForFunctionCalls (cancelDirective "MessageId_Test" s) = HANDLE_DIRECTIVE.
Proof.
  intros d cs s.
  assert (H : ~ prehandle_issued "MessageId_Test" cs).
  { intros (d' & Hin & Hd). simpl in Hin.
    destruct Hin as [Hin|[Hin|[]]]; [|discriminate Hin].
    injection Hin as <-. discriminate Hd. }
  split; [exact H|].
  exact (cancelDirective_without_prehandle cs "MessageId_Test" H).
Defined.

End CapabilityAgentFacts.

(** * String concatenation *)

Module StringFacts.

Lemma append_cons x (a b : string) : String x a +:+ b = String x (a +:+ b).
Proof. reflexivity. Qed.

Lemma append_assoc (a b c : string) : (a +:+ b) +:+ c = a +:+ (b +:+ c).
Proof. induction a as [|x a IH]; [done|]. by rewrite !append_cons, IH. Qed.

End StringFacts.

(** * Further properties of the attachment manager *)

Module AttachmentManagerLaws.
Import AttachmentManager AttachmentSlots AttachmentManagerFacts.

Section Laws.

Context {Stream : Type}.
Variable ticks_per_minute : Z.
Variable unique_keys : bool.

Local Abbreviation heap := (list (shared_state Stream)).
Local Abbreviation slots := (gmap string promise * list (shared_state Stream))%type.
Local Abbreviation expired := (expired ticks_per_minute).
Local Abbreviation expired_prefix := (expired_prefix ticks_per_minute).
Local Abbreviation drop_expired := (drop_expired ticks_per_minute).
Local Abbreviation timeGap := (timeGap ticks_per_minute).
Local Abbreviation ts_insert := (ts_insert unique_keys).
Local Abbreviation createAttachment :=
  (createAttachment (Stream:=Stream) ticks_per_minute unique_keys).
Local Abbreviation step := (step (Stream:=Stream) ticks_per_minute unique_keys).
Local Abbreviation run := (run (Stream:=Stream) ticks_per_minute unique_keys).
Local Abbreviation scanned :=
  (scanned (Stream:=Stream) ticks_per_minute unique_keys).

(** *** Shared states that are ready or broken stay as they are *)

Lemma abandon_settled k j st (h : heap) :
  h !! j = Some st -> st ≠ Pending -> abandon k h !! j = Some st.
Proof.
  intros Hj Hst. destruct (decide (k = j)) as [->|Hne].
  - unfold abandon. rewrite Hj. by destruct st.
  - by rewrite abandon_lookup_ne.
Qed.

Lemma erase_settled id j st (s : slots) :
  s.2 !! j = Some st -> st ≠ Pending -> (erase id s).2 !! j = Some st.
Proof.
  intros Hj Hst. unfold erase. destruct (s.1 !! id); [|done].
  by apply abandon_settled.
Qed.

Lemma erase_all_settled l j st (s : slots) :
  s.2 !! j = Some st -> st ≠ Pending -> (erase_all l s).2 !! j = Some st.
Proof.
  revert s. induction l as [|x l IH]; intros s Hj Hst; [done|].
  rewrite erase_all_cons. apply IH; [|done]. by apply erase_settled.
Qed.

Lemma set_value_settled p v j st (h : heap) :
  h !! j = Some st -> st ≠ Pending -> (set_value p v h).2 !! j = Some st.
Proof.
  intros Hj Hst. unfold set_value.
  destruct (h !! p_state p) as [[| |]|] eqn:Hp; simpl; try done.
  rewrite list_lookup_insert_ne; [done|]. intros Heq. rewrite Heq in Hp. congruence.
Qed.

Lemma helper_lookup_old id j st (s : t (Stream:=Stream)) :
  shared_states s !! j = Some st ->
  shared_states (createAttachmentPromiseHelperLocked id s) !! j = Some st.
Proof.
  intros Hj. unfold createAttachmentPromiseHelperLocked.
  destruct (m_attachments s !! id); simpl; [done|].
  rewrite lookup_app_l; [done|]. by eapply lookup_lt_Some.
Qed.

Lemma createAttachmentReader_shared_states id (s : t (Stream:=Stream)) :
  shared_states (createAttachmentReader id s).2
  = shared_states (createAttachmentPromiseHelperLocked id s).
Proof.
  unfold createAttachmentReader.
  destruct (m_attachments _ !! id) as [p|]; [destruct (p_retrieved p)|]; done.
Qed.

Lemma step_settled c j st (s : t (Stream:=Stream)) :
  shared_states s !! j = Some st -> st ≠ Pending ->
  shared_states (step s c) !! j = Some st.
Proof.
  intros Hj Hst. destruct c as [id|id a now|id]; simpl.
  - rewrite createAttachmentReader_shared_states. by apply helper_lookup_old.
  - rewrite createAttachment_scan. cbv zeta.
    pose proof (helper_lookup_old id j st s Hj) as Hj1.
    remember (erase_all _ _) as r eqn:Hr.
    assert (Hj2 : r.2 !! j = Some st) by (rewrite Hr; by apply erase_all_settled).
    destruct (r.1 !! id); simpl; [|done]. by apply set_value_settled.
  - unfold releaseAttachment.
    pose proof (erase_settled id j st (m_attachments s, shared_states s) Hj Hst) as He.
    by destruct (erase id _).
Qed.

(** X1. A future that has resolved to a value, or that reports an error,
    reports the same whatever is called on the manager afterwards. *)
Theorem settled_future_is_final (s : t (Stream:=Stream)) f cs :
  future_get s f ≠ Blocks ->
  future_get (run cs s) f = future_get s f.
Proof.
  revert s. induction cs as [|c cs IH]; intros s Hf; [done|].
  change (run (c :: cs) s) with (run cs (step s c)).
  assert (Hstep : future_get (step s c) f = future_get s f).
  { unfold future_get in *.
    destruct (shared_states s !! (f : nat)) as [st|] eqn:Hs; [|done].
    destruct st as [|v|e]; [done| |];
      by rewrite (step_settled c f _ s Hs). }
  rewrite IH; [done|]. by rewrite Hstep.
Qed.

(** *** Release *)

(** X2. [releaseAttachment] for an id that has no slot changes nothing, and
    releasing an id a second time changes nothing more. *)
Theorem releaseAttachment_missing_or_twice (s : t (Stream:=Stream)) id :
  (m_attachments s !! id = None -> releaseAttachment id s = s)
  /\ releaseAttachment id (releaseAttachment id s) = releaseAttachment id s.
Proof.
  assert (Hmiss : forall s' : t (Stream:=Stream),
             m_attachments s' !! id = None -> releaseAttachment id s' = s').
  { intros s' Hnone. unfold releaseAttachment, erase. simpl. rewrite Hnone.
    by destruct s'. }
  split; [apply Hmiss|]. apply Hmiss.
  unfold releaseAttachment.
  pose proof (erase_lookup_eq id (m_attachments s, shared_states s)) as He.
  by destruct (erase id _).
Qed.

(** *** Readers *)

Lemma createAttachmentReader_cases (s : t (Stream:=Stream)) id :
  createAttachmentReader id s =
  match m_attachments s !! id with
  | Some p =>
      if p_retrieved p then (Thrown future_already_retrieved, s)
      else (Returned (p_state p),
            Build (m_timeout s) (<[id := Promise (p_state p) true]> (m_attachments s))
              (m_timeStamps s) (shared_states s))
  | None =>
      (Returned (length (shared_states s)),
       Build (m_timeout s)
         (<[id := Promise (length (shared_states s)) true]> (m_attachments s))
         (m_timeStamps s) (shared_states s ++ [Pending]))
  end.
Proof.
  unfold createAttachmentReader, createAttachmentPromiseHelperLocked.
  destruct (m_attachments s !! id) as [p|] eqn:Hid; simpl.
  - rewrite Hid. by destruct (p_retrieved p).
  - rewrite lookup_insert_eq. simpl. by rewrite insert_insert_eq.
Qed.

(** X3. [createAttachmentReader] returns a future or throws
    [future_already_retrieved], nothing else; it throws, and changes nothing,
    exactly when the slot exists with its future handed out; and after any
    call of it the next call for the same id throws. *)
Theorem createAttachmentReader_once (s : t (Stream:=Stream)) id :
  let r := createAttachmentReader id s in
  ((exists f, r.1 = Returned f) \/ r.1 = Thrown future_already_retrieved)
  /\ (r.1 = Thrown future_already_retrieved
      <-> exists p, m_attachments s !! id = Some p /\ p_retrieved p = true)
  /\ (r.1 = Thrown future_already_retrieved -> r.2 = s)
  /\ createAttachmentReader id r.2 = (Thrown future_already_retrieved, r.2).
Proof.
  intros r. unfold r. clear r. rewrite (createAttachmentReader_cases s).
  destruct (m_attachments s !! id) as [p|] eqn:Hid;
    [destruct (p_retrieved p) eqn:Hr|]; simpl.
  - rewrite createAttachmentReader_cases, Hid, Hr. repeat split; eauto.
  - rewrite createAttachmentReader_cases. simpl. rewrite lookup_insert_eq. simpl.
    repeat split; eauto; try done.
    intros (q & Hq & Hq'). congruence.
  - rewrite createAttachmentReader_cases. simpl. rewrite lookup_insert_eq. simpl.
    repeat split; eauto; try done.
    intros (q & Hq & _). done.
Qed.

(** *** Eviction of a slot that a reader waits on *)

Lemma expired_entry_visited timeout now idx e :
  0 < ticks_per_minute -> oldest_first idx -> In e idx ->
  expired timeout now e = true -> In e (expired_prefix timeout now idx).
Proof.
  intros Hpos Hs He Hexp. apply in_split in He as (l1 & l2 & ->).
  destruct (oldest_first_app _ _ _ Hs) as [Hbefore _].
  rewrite expired_prefix_reaches; [apply in_or_app; right; by left| |done].
  eapply Forall_impl; [exact Hbefore|]. simpl. intros x Hx.
  by apply (expired_older ticks_per_minute timeout now x e).
Qed.

Lemma abandon_breaks k j (h : heap) :
  h !! j = Some Pending ->
  abandon k h !! j = Some Pending
  \/ abandon k h !! j = Some (Broken broken_promise).
Proof.
  intros Hj. destruct (decide (k = j)) as [->|Hne].
  - right. by apply abandon_pending.
  - left. by rewrite abandon_lookup_ne.
Qed.

Lemma erase_all_breaks l e p (st : slots) :
  In e l -> st.1 !! e.2 = Some p -> st.2 !! p_state p = Some Pending ->
  (erase_all l st).2 !! p_state p = Some (Broken broken_promise).
Proof.
  revert st. induction l as [|x l IH]; intros st Hin Hp Hk; [done|].
  rewrite erase_all_cons.
  destruct (decide (x.2 = e.2)) as [Heq|Hne].
  - apply erase_all_settled; [|done]. unfold erase. rewrite Heq, Hp. simpl.
    by apply abandon_pending.
  - assert (Hin' : In e l).
    { destruct Hin as [->|Hin]; [done|done]. }
    assert (Hp' : (erase x.2 st).1 !! e.2 = Some p) by by rewrite erase_lookup_ne.
    assert (Hk' : (erase x.2 st).2 !! p_state p = Some Pending
                  \/ (erase x.2 st).2 !! p_state p = Some (Broken broken_promise)).
    { unfold erase. destruct (st.1 !! x.2); simpl; [by apply abandon_breaks|by left]. }
    destruct Hk' as [Hk'|Hk']; [by apply IH|].
    by apply erase_all_settled.
Qed.

(** A scan that visits a stamp of an id whose slot is pending erases the
    slot and breaks its promise. *)
Lemma scan_breaks_pending_slot (s : t (Stream:=Stream)) id stamp p id' now :
  0 < ticks_per_minute ->
  oldest_first (m_timeStamps s) ->
  In (stamp, id) (m_timeStamps s) ->
  m_timeout s <= timeGap now stamp ->
  m_attachments s !! id = Some p ->
  shared_states s !! p_state p = Some Pending ->
  (scanned id' now s).1 !! id = None
  /\ (scanned id' now s).2 !! p_state p = Some (Broken broken_promise).
Proof.
  intros Hpos Hs Hin Hexp Hp Hk. unfold AttachmentSlots.scanned.
  assert (Hvis : In (stamp, id)
            (expired_prefix (m_timeout s) now (ts_insert (now, id') (m_timeStamps s)))).
  { apply expired_entry_visited; auto using ts_insert_oldest_first, In_ts_insert.
    unfold AttachmentManager.expired. by apply Z.leb_le. }
  split; [by apply (erase_all_lookup_in _ (stamp, id))|].
  apply (erase_all_breaks _ (stamp, id)); [done| |by apply helper_lookup_old].
  simpl. destruct (decide (id' = id)) as [->|Hne]; [|by rewrite helper_lookup_ne].
  unfold createAttachmentPromiseHelperLocked. by rewrite Hp.
Qed.

(** What [createAttachment] leaves of the scan: the map of the scan, and
    every shared state that the scan left ready or broken. *)
Lemma createAttachment_after_scan (s : t (Stream:=Stream)) id' a now :
  m_attachments (createAttachment id' a now s).2 = (scanned id' now s).1
  /\ forall j st, (scanned id' now s).2 !! j = Some st -> st ≠ Pending ->
       shared_states (createAttachment id' a now s).2 !! j = Some st.
Proof.
  split; [apply createAttachment_attachments|].
  intros j st Hj Hst. unfold AttachmentSlots.scanned in Hj.
  rewrite createAttachment_scan. cbv zeta.
  rewrite helper_timeout, helper_timeStamps.
  destruct ((erase_all _ _).1 !! id') as [q|]; simpl; [|done].
  by apply set_value_settled.
Qed.

(** X4. When the index is ordered oldest first and holds a stamp of an id
    that has reached the timeout, while the slot of the id is pending, a
    [createAttachment] at that time, for this or any other id, erases the
    slot and the future of the slot reports [broken_promise]: it is not
    fulfilled, also when the call provides this very id. *)
Theorem eviction_breaks_waiting_reader (s : t (Stream:=Stream)) id stamp p id' a now :
  0 < ticks_per_minute ->
  oldest_first (m_timeStamps s) ->
  In (stamp, id) (m_timeStamps s) ->
  m_timeout s <= timeGap now stamp ->
  m_attachments s !! id = Some p ->
  shared_states s !! p_state p = Some Pending ->
  let s' := (createAttachment id' a now s).2 in
  m_attachments s' !! id = None
  /\ future_get s' (p_state p) = Raises broken_promise.
Proof.
  intros Hpos Hs Hin Hexp Hp Hk s'. unfold s'.
  destruct (scan_breaks_pending_slot s id stamp p id' now Hpos Hs Hin Hexp Hp Hk)
    as [Hgone Hbroken].
  destruct (createAttachment_after_scan s id' a now) as [Hmap Hstates].
  split; [by rewrite Hmap|].
  unfold future_get. by rewrite (Hstates _ _ Hbroken).
Qed.

(** X5. [releaseAttachment] leaves the time stamps of the id in the index.
    So when a stamp of the id is in the index, a reader that asks for the id
    after its release gets the future of a new pending slot, and a
    [createAttachment] at a time when the old stamp has reached the timeout
    erases that slot: the future reports [broken_promise]. *)
Theorem released_id_keeps_its_stamp (s : t (Stream:=Stream)) id stamp now :
  0 < ticks_per_minute ->
  oldest_first (m_timeStamps s) ->
  In (stamp, id) (m_timeStamps s) ->
  m_timeout s <= timeGap now stamp ->
  exists f s2,
    createAttachmentReader id (releaseAttachment id s) = (Returned f, s2)
    /\ In (stamp, id) (m_timeStamps s2)
    /\ future_get s2 f = Blocks
    /\ forall id' a,
         future_get (createAttachment id' a now s2).2 f = Raises broken_promise
         /\ m_attachments (createAttachment id' a now s2).2 !! id = None.
Proof.
  intros Hpos Hs Hin Hexp.
  set (s1 := releaseAttachment id s).
  assert (Hnone : m_attachments s1 !! id = None).
  { unfold s1, releaseAttachment.
    pose proof (erase_lookup_eq id (m_attachments s, shared_states s)) as He.
    by destruct (erase id _). }
  assert (Hts : m_timeStamps s1 = m_timeStamps s) by apply releaseAttachment_timeStamps.
  assert (Hto : m_timeout s1 = m_timeout s).
  { unfold s1, releaseAttachment. by destruct (erase id _). }
  rewrite createAttachmentReader_cases, Hnone.
  set (k := length (shared_states s1)).
  do 2 eexists. split; [reflexivity|]. simpl.
  assert (Hk : (shared_states s1 ++ [Pending]) !! k = Some (Pending (Stream:=Stream))).
  { unfold k. by rewrite lookup_app_r, Nat.sub_diag by lia. }
  split; [by rewrite Hts|]. split.
  { unfold future_get. simpl. by rewrite Hk. }
  intros id' a.
  set (s2 := Build (m_timeout s1) (<[id:=Promise k true]> (m_attachments s1))
               (m_timeStamps s1) (shared_states s1 ++ [Pending])).
  destruct (scan_breaks_pending_slot s2 id stamp (Promise k true) id' now Hpos)
    as [Hgone Hbroken]; simpl; rewrite ?Hts, ?Hto; try done.
  { by rewrite lookup_insert_eq. }
  destruct (createAttachment_after_scan s2 id' a now) as [Hmap Hstates].
  split; [|by rewrite Hmap].
  unfold future_get. simpl in Hbroken. by rewrite (Hstates _ _ Hbroken).
Qed.

(** *** Timeout zero *)

Lemma zero_timeout_step c (s : t (Stream:=Stream)) :
  m_timeout s = 0 -> m_timeStamps s = [] ->
  (forall j v, shared_states s !! j ≠ Some (Ready v)) ->
  forall j v, shared_states (step s c) !! j ≠ Some (Ready v).
Proof.
  intros Hz He Hnone j v. destruct c as [id|id a now|id]; simpl.
  - rewrite createAttachmentReader_shared_states. rewrite helper_ready. apply Hnone.
  - rewrite createAttachment_scan. cbv zeta.
    rewrite helper_timeout, helper_timeStamps, Hz, He. simpl.
    unfold AttachmentManager.expired. simpl.
    rewrite (timeGap_now ticks_per_minute). simpl.
    rewrite erase_lookup_eq. simpl.
    rewrite erase_ready. simpl. rewrite helper_ready. apply Hnone.
  - unfold releaseAttachment.
    pose proof (erase_ready id j v (m_attachments s, shared_states s)) as Hr.
    destruct (erase id _). simpl in *. rewrite Hr. apply Hnone.
Qed.

(** X6. On a manager created with timeout zero no future ever resolves to a
    value, whatever is called and whatever times the clock shows: a future
    blocks or reports an error. *)
Theorem zero_timeout_never_resolves cs f :
  let s := run cs (create (Stream:=Stream) 0) in
  future_get s f = Blocks \/ exists e, future_get s f = Raises e.
Proof.
  intros s.
  assert (Hno : forall v, future_get s f ≠ Value v); [|
    destruct (future_get s f) as [|v|e]; [by left|by destruct (Hno v)|by eauto]].
  intros v. unfold s. clear s.
  assert (Hinv : forall cs (s : t (Stream:=Stream)),
             m_timeout s = 0 -> m_timeStamps s = [] ->
             (forall j v, shared_states s !! j ≠ Some (Ready v)) ->
             forall j v, shared_states (run cs s) !! j ≠ Some (Ready v)).
  { clear. intros cs. induction cs as [|c cs IH]; intros s Hz He Hnone; [done|].
    change (run (c :: cs) s) with (run cs (step s c)). apply IH.
    - by rewrite step_timeout.
    - apply (zero_timeout_index_empty ticks_per_minute unique_keys [c] s Hz He).
    - by apply zero_timeout_step. }
  unfold future_get.
  destruct (shared_states _ !! (f : nat)) as [[|w|e]|] eqn:Hf; try done.
  intros [= ->]. revert Hf. by apply Hinv.
Qed.

(** *** Consistency of the slots, and what it gives *)

Lemma consistent_slots_bound (st : slots) i p :
  consistent_slots st -> st.1 !! i = Some p -> (p_state p < length st.2)%nat.
Proof.
  intros [_ Hst] Hi. destruct (Hst i p Hi) as [H|[v H]]; by eapply lookup_lt_Some.
Qed.

Lemma erase_state_other id j q (st : slots) :
  consistent_slots st -> st.1 !! j = Some q -> id ≠ j ->
  (erase id st).2 !! p_state q = st.2 !! p_state q.
Proof.
  intros [Hsep _] Hj Hne. unfold erase.
  destruct (st.1 !! id) as [p|] eqn:Hid; [|done]. simpl.
  apply abandon_lookup_ne. intros Heq. apply Hne. by eapply Hsep.
Qed.

Lemma erase_consistent id (st : slots) :
  consistent_slots st -> consistent_slots (erase id st).
Proof.
  intros Hc. pose proof Hc as [Hsep Hst]. split.
  - intros i j p q Hi Hj. apply erase_lookup_Some in Hi, Hj. by eapply Hsep.
  - intros i p Hi.
    assert (Hne : id ≠ i).
    { intros ->. by rewrite erase_lookup_eq in Hi. }
    apply erase_lookup_Some in Hi.
    rewrite (erase_state_other id i p st Hc Hi Hne). by apply (Hst i).
Qed.

Lemma erase_all_consistent l (st : slots) :
  consistent_slots st -> consistent_slots (erase_all l st).
Proof.
  revert st. induction l as [|x l IH]; intros st Hc; [done|].
  rewrite erase_all_cons. by apply IH, erase_consistent.
Qed.

(** A slot that a run of erasures leaves in the map keeps its shared state. *)
Lemma erase_all_survivor l j q (st : slots) :
  consistent_slots st -> (erase_all l st).1 !! j = Some q ->
  (erase_all l st).2 !! p_state q = st.2 !! p_state q.
Proof.
  revert st. induction l as [|x l IH]; intros st Hc Hj; [done|].
  rewrite erase_all_cons in *.
  rewrite IH by auto using erase_consistent.
  pose proof (erase_all_lookup_Some _ j _ _ Hj) as Hj'.
  assert (Hne : x.2 ≠ j).
  { intros Heq. rewrite <- Heq in Hj'. by rewrite erase_lookup_eq in Hj'. }
  apply erase_lookup_Some in Hj'. by apply (erase_state_other _ j).
Qed.

Lemma helper_consistent id (s : t (Stream:=Stream)) :
  consistent s -> consistent (createAttachmentPromiseHelperLocked id s).
Proof.
  intros Hc. pose proof Hc as [Hsep Hst].
  unfold consistent, createAttachmentPromiseHelperLocked.
  destruct (m_attachments s !! id) eqn:Hid; [done|]. simpl in *.
  assert (Hb : forall i p, m_attachments s !! i = Some p ->
                 (p_state p < length (shared_states s))%nat).
  { intros i p Hi. by apply (consistent_slots_bound _ i p Hc). }
  split; simpl.
  - intros i j p q Hi Hj Heq.
    destruct (decide (i = id)) as [->|Hi']; destruct (decide (j = id)) as [->|Hj'];
      [done| | |].
    + rewrite lookup_insert_eq in Hi. rewrite lookup_insert_ne in Hj by done.
      simplify_eq. apply Hb in Hj. simpl in Heq. lia.
    + rewrite lookup_insert_eq in Hj. rewrite lookup_insert_ne in Hi by done.
      simplify_eq. apply Hb in Hi. simpl in Heq. lia.
    + rewrite lookup_insert_ne in Hi, Hj by done. by eapply Hsep.
  - intros i p Hi. destruct (decide (i = id)) as [->|Hne].
    + rewrite lookup_insert_eq in Hi. simplify_eq. simpl. left.
      by rewrite lookup_app_r, Nat.sub_diag by lia.
    + rewrite lookup_insert_ne in Hi by done.
      rewrite lookup_app_l by by eapply Hb. by apply (Hst i).
Qed.

Lemma createAttachmentReader_consistent id (s : t (Stream:=Stream)) :
  consistent s -> consistent (createAttachmentReader id s).2.
Proof.
  intros Hc. apply (helper_consistent id) in Hc.
  unfold createAttachmentReader.
  destruct (m_attachments _ !! id) as [p|] eqn:Hid; [|done].
  destruct (p_retrieved p); [done|]. simpl.
  destruct Hc as [Hsep Hst]. simpl in *.
  assert (Hlook : forall i q,
            <[id:=Promise (p_state p) true]>
              (m_attachments (createAttachmentPromiseHelperLocked id s)) !! i = Some q ->
            exists q', m_attachments (createAttachmentPromiseHelperLocked id s) !! i
                       = Some q' /\ p_state q' = p_state q).
  { intros i q. destruct (decide (i = id)) as [->|Hne].
    - rewrite lookup_insert_eq. intros [= <-]. eauto.
    - rewrite lookup_insert_ne by done. eauto. }
  split; simpl.
  - intros i j q1 q2 Hi Hj Heq.
    apply Hlook in Hi as (q1' & Hi & E1). apply Hlook in Hj as (q2' & Hj & E2).
    apply (Hsep i j q1' q2' Hi Hj). congruence.
  - intros i q Hi. apply Hlook in Hi as (q' & Hi & E). rewrite <- E. by eapply Hst.
Qed.

Lemma set_value_consistent id p a (st : slots) :
  consistent_slots st -> st.1 !! id = Some p ->
  consistent_slots (st.1, (set_value p a st.2).2).
Proof.
  intros [Hsep Hst] Hp. split; [done|]. simpl. intros i q Hi.
  unfold set_value.
  destruct (st.2 !! p_state p) as [[| |]|] eqn:Hk; simpl; try by apply (Hst i).
  destruct (decide (p_state p = p_state q)) as [Heq|Hne].
  - right. exists a. rewrite <- Heq.
    apply list_lookup_insert_eq. by eapply lookup_lt_Some.
  - rewrite list_lookup_insert_ne by done. by apply (Hst i).
Qed.

Lemma createAttachment_consistent id a now (s : t (Stream:=Stream)) :
  consistent s -> consistent (createAttachment id a now s).2.
Proof.
  intros Hc. apply (helper_consistent id) in Hc.
  rewrite createAttachment_scan. cbv zeta.
  remember (erase_all _ _) as r eqn:Hr.
  assert (Hcr : consistent_slots r) by (rewrite Hr; by apply erase_all_consistent).
  destruct (r.1 !! id) as [p|] eqn:Hp; unfold consistent; simpl.
  - by apply (set_value_consistent id).
  - by destruct r.
Qed.

Lemma releaseAttachment_consistent id (s : t (Stream:=Stream)) :
  consistent s -> consistent (releaseAttachment id s).
Proof.
  intros Hc. unfold releaseAttachment.
  pose proof (erase_consistent id _ Hc) as He.
  by destruct (erase id _).
Qed.

Lemma run_consistent cs (s : t (Stream:=Stream)) :
  consistent s -> consistent (run cs s).
Proof.
  revert s. induction cs as [|c cs IH]; intros s Hc; [done|].
  apply IH. destruct c; simpl;
    auto using createAttachmentReader_consistent, createAttachment_consistent,
      releaseAttachment_consistent.
Qed.

Lemma create_consistent timeout : consistent (create (Stream:=Stream) timeout).
Proof. split; simpl; intros ? ?; by rewrite ?lookup_empty. Qed.

(** X7. On a manager reached from a new one, a call for one id leaves the
    slot of every other id, and the shared state behind it, as they are; for
    [createAttachment] this holds when no stamp of the other id has reached
    the timeout at the time of the call. *)
Theorem other_slots_untouched timeout cs c id' :
  let s := run cs (create (Stream:=Stream) timeout) in
  call_id c ≠ id' ->
  (forall id a now, c = CreateAttachment id a now ->
     forall e, In e (m_timeStamps s) -> e.2 = id' -> timeGap now e.1 < m_timeout s) ->
  m_attachments (step s c) !! id' = m_attachments s !! id'
  /\ forall p, m_attachments s !! id' = Some p ->
       shared_states (step s c) !! p_state p = shared_states s !! p_state p.
Proof.
  intros s Hne Hfresh.
  assert (Hc : consistent s) by apply run_consistent, create_consistent.
  clearbody s. destruct c as [id|id a now|id]; simpl in *.
  - rewrite createAttachmentReader_shared_states.
    assert (Hl : m_attachments (createAttachmentReader id s).2 !! id'
                 = m_attachments s !! id').
    { unfold createAttachmentReader.
      pose proof (helper_lookup_ne id id' s Hne) as Hl.
      destruct (m_attachments _ !! id) as [q|]; [destruct (p_retrieved q)|];
        simpl; rewrite ?lookup_insert_ne by done; done. }
    split; [done|]. intros p Hp.
    destruct (proj2 Hc id' p Hp) as [H|[v H]]; simpl in H;
      rewrite H; by apply helper_lookup_old.
  - specialize (Hfresh id a now eq_refl).
    assert (Hspare : forall e,
              In e (expired_prefix (m_timeout s) now (ts_insert (now, id) (m_timeStamps s))) ->
              e.2 ≠ id').
    { intros e He Heq. apply expired_prefix_In in He as [Hin Hexp].
      unfold AttachmentManager.expired in Hexp. apply Z.leb_le in Hexp.
      apply ts_insert_In in Hin as [->|Hin]; [done|].
      specialize (Hfresh e Hin Heq). lia. }
    assert (Hl : m_attachments (createAttachment id a now s).2 !! id'
                 = m_attachments s !! id').
    { rewrite createAttachment_attachments, erase_all_lookup_notin by done.
      simpl. by apply helper_lookup_ne. }
    split; [done|]. intros p Hp.
    pose proof (helper_consistent id s Hc) as Hc1.
    assert (Hk1 : shared_states (createAttachmentPromiseHelperLocked id s) !! p_state p
                  = shared_states s !! p_state p).
    { destruct (proj2 Hc id' p Hp) as [H|[v H]]; simpl in H;
        rewrite H; by apply helper_lookup_old. }
    rewrite createAttachment_attachments in Hl. rewrite Hp in Hl.
    rewrite createAttachment_scan. cbv zeta.
    rewrite helper_timeout, helper_timeStamps.
    remember (erase_all _ _) as r eqn:Hr.
    assert (Hcr : consistent_slots r) by (rewrite Hr; by apply erase_all_consistent).
    assert (Hkr : r.2 !! p_state p = shared_states s !! p_state p).
    { rewrite <- Hk1. rewrite Hr in Hl |- *. by apply (erase_all_survivor _ id'). }
    destruct (r.1 !! id) as [q|] eqn:Hq; simpl; [|done].
    unfold set_value. destruct (r.2 !! p_state q) as [[| |]|]; simpl; try done.
    rewrite list_lookup_insert_ne; [done|].
    intros Heq. apply Hne. by apply (proj1 Hcr id id' q p).
  - unfold releaseAttachment.
    pose proof (erase_lookup_ne id id' (m_attachments s, shared_states s) Hne) as Hl.
    pose proof (fun p Hp => erase_state_other id id' p _ Hc Hp Hne) as Hk.
    destruct (erase id _) as [atts h]. simpl in *. split; [done|]. by apply Hk.
Qed.

(** X8. On a manager reached from a new one, [createAttachment] either
    returns or throws [promise_already_satisfied], nothing else. It throws
    exactly when the slot of the id was fulfilled before the call and the scan
    of this call has not erased it; when it returns, the slot of the id is
    either gone or fulfilled with the attachment of this call. *)
Theorem createAttachment_outcome timeout cs id a now :
  let s := run cs (create (Stream:=Stream) timeout) in
  let r := createAttachment id a now s in
  (r.1 = Returned tt \/ r.1 = Thrown promise_already_satisfied)
  /\ (r.1 = Thrown promise_already_satisfied
      <-> exists p v, fulfilled s id p v /\ m_attachments r.2 !! id = Some p)
  /\ (r.1 = Returned tt ->
      m_attachments r.2 !! id = None \/ exists p, fulfilled r.2 id p a).
Proof.
  intros s r.
  assert (Hc : consistent s) by apply run_consistent, create_consistent.
  clearbody s. unfold r. clear r.
  pose proof (helper_consistent id s Hc) as Hc1.
  rewrite createAttachment_scan. cbv zeta.
  remember (createAttachmentPromiseHelperLocked id s) as s1 eqn:Hs1.
  remember (erase_all _ _) as st eqn:Hst.
  assert (Hcst : consistent_slots st) by (rewrite Hst; by apply erase_all_consistent).
  destruct (st.1 !! id) as [p|] eqn:Hp; simpl.
  2: { split; [by left|]. split; [|by left].
       split; [done|]. intros (q & v & _ & Hq). congruence. }
  assert (Hk : st.2 !! p_state p = shared_states s1 !! p_state p).
  { rewrite Hst in Hp |- *. by apply (erase_all_survivor _ id). }
  assert (Hp1 : m_attachments s1 !! id = Some p).
  { rewrite Hst in Hp. by apply erase_all_lookup_Some in Hp. }
  clear Hst.
  assert (Hold : forall q v, fulfilled s id q v ->
                   q = p /\ st.2 !! p_state p = Some (Ready v)).
  { intros q v [Hq Hv]. rewrite Hk.
    rewrite Hs1 in Hp1 |- *. unfold createAttachmentPromiseHelperLocked in *.
    rewrite Hq in *. split; congruence. }
  assert (Hnew : forall v, st.2 !! p_state p = Some (Ready v) -> fulfilled s id p v).
  { intros v Hv. rewrite Hk in Hv.
    rewrite Hs1 in Hp1, Hv. unfold createAttachmentPromiseHelperLocked in *.
    destruct (m_attachments s !! id) as [q|] eqn:Hq; simpl in *.
    - split; congruence.
    - rewrite lookup_insert_eq in Hp1. injection Hp1 as <-. simpl in Hv.
      rewrite lookup_app_r, Nat.sub_diag in Hv by lia. discriminate Hv. }
  unfold set_value.
  destruct (proj2 Hcst id p Hp) as [Hpend|[v Hready]].
  - rewrite Hpend. simpl. split; [by left|]. split.
    + split; [done|]. intros (q & v & Hf & _).
      destruct (Hold q v Hf) as [_ Hv]. congruence.
    + intros _. right. exists p. split; simpl; [done|].
      apply list_lookup_insert_eq. by eapply lookup_lt_Some.
  - rewrite Hready. simpl. split; [by right|]. split; [|done].
    split; [|done]. intros _. exists p, v. split; [|done]. by apply Hnew.
Qed.

End Laws.

(** *** The theorems at concrete managers *)

Abbreviation minute := nanoseconds_per_minute.

Lemma settled_future_is_final_witness :
  let s := (createAttachment (Stream:=nat) minute false "A1" 1%nat 0 (create 1)).2 in
  let cs := [ReleaseAttachment "A1"; CreateAttachment "A1" 2%nat 5;
             CreateAttachmentReader "A1"] in
  future_get s 0%nat ≠ Blocks
  /\ future_get (run minute false cs s) 0%nat = Value 1%nat.
Proof.
  intros s cs.
  assert (H : future_get s 0%nat ≠ Blocks) by (vm_compute; discriminate).
  split; [exact H|].
  exact (settled_future_is_final minute false s 0%nat cs H).
Defined.

Lemma eviction_breaks_waiting_reader_witness :
  let s := run (Stream:=nat) minute false
             [CreateAttachment "A" 1%nat 0; ReleaseAttachment "A";
              CreateAttachmentReader "A"] (create 1) in
  0 < minute
  /\ oldest_first (m_timeStamps s)
  /\ In (0, "A") (m_timeStamps s)
  /\ m_timeout s <= AttachmentManager.timeGap minute minute 0
  /\ m_attachments s !! "A" = Some (Promise 1 true)
  /\ shared_states s !! 1%nat = Some Pending
  /\ m_attachments (createAttachment minute false "A" 2%nat minute s).2 !! "A" = None
  /\ future_get (createAttachment minute false "A" 2%nat minute s).2 1%nat
     = Raises broken_promise.
Proof.
  intros s.
  assert (H1 : 0 < minute) by reflexivity.
  assert (H2 : oldest_first (m_timeStamps s))
    by (apply run_oldest_first; constructor).
  assert (H3 : In (0, "A") (m_timeStamps s)) by (vm_compute; auto).
  assert (H4 : m_timeout s <= AttachmentManager.timeGap minute minute 0)
    by (vm_compute; discriminate).
  assert (H5 : m_attachments s !! "A" = Some (Promise 1 true))
    by (vm_compute; reflexivity).
  assert (H6 : shared_states s !! 1%nat = Some Pending) by (vm_compute; reflexivity).
  repeat (split; [assumption|]).
  exact (eviction_breaks_waiting_reader minute false s "A" 0 (Promise 1 true)
           "A" 2%nat minute H1 H2 H3 H4 H5 H6).
Defined.

Lemma released_id_keeps_its_stamp_witness :
  let s := run (Stream:=nat) minute false [CreateAttachment "A" 1%nat 0] (create 1) in
  0 < minute
  /\ oldest_first (m_timeStamps s)
  /\ In (0, "A") (m_timeStamps s)
  /\ m_timeout s <= AttachmentManager.timeGap minute minute 0
  /\ exists f s2,
       createAttachmentReader "A" (releaseAttachment "A" s) = (Returned f, s2)
       /\ In (0, "A") (m_timeStamps s2)
       /\ future_get s2 f = Blocks
       /\ forall id' a,
            future_get (createAttachment minute false id' a minute s2).2 f
            = Raises broken_promise
            /\ m_attachments (createAttachment minute false id' a minute s2).2 !! "A"
               = None.
Proof.
  intros s.
  assert (H1 : 0 < minute) by reflexivity.
  assert (H2 : oldest_first (m_timeStamps s))
    by (apply run_oldest_first; constructor).
  assert (H3 : In (0, "A") (m_timeStamps s)) by (vm_compute; auto).
  assert (H4 : m_timeout s <= AttachmentManager.timeGap minute minute 0)
    by (vm_compute; discriminate).
  repeat (split; [assumption|]).
  exact (released_id_keeps_its_stamp minute false s "A" 0 minute H1 H2 H3 H4).
Defined.

Lemma other_slots_untouched_witness :
  let cs := [CreateAttachment (Stream:=nat) "B" 1%nat 0] in
  let c := CreateAttachment "A" 2%nat 5 in
  let s := run minute false cs (create 1) in
  call_id c ≠ "B"
  /\ (forall id a now, c = CreateAttachment id a now ->
        forall e, In e (m_timeStamps s) -> e.2 = "B" ->
                  AttachmentManager.timeGap minute now e.1 < m_timeout s)
  /\ m_attachments (step minute false s c) !! "B" = m_attachments s !! "B"
  /\ forall p, m_attachments s !! "B" = Some p ->
       shared_states (step minute false s c) !! p_state p
       = shared_states s !! p_state p.
Proof.
  intros cs c s.
  assert (H1 : call_id c ≠ "B") by (simpl; discriminate).
  assert (H2 : forall id a now, c = CreateAttachment id a now ->
             forall e, In e (m_timeStamps s) -> e.2 = "B" ->
                       AttachmentManager.timeGap minute now e.1 < m_timeout s).
  { intros id a now [= <- <- <-] e He _. vm_compute in He.
    destruct He as [<-|[]]. vm_compute. reflexivity. }
  repeat (split; [assumption|]).
  exact (other_slots_untouched minute false 1 cs c "B" H1 H2).
Defined.

End AttachmentManagerLaws.

(** * Properties of MockAttachmentManager *)

Module MockAttachmentManagerFacts.
Import MockAttachmentManager.

Section Facts.

Context {Stream : Type}.

Local Abbreviation all_broken :=
  (Forall (fun st : shared_state Stream => st = Broken broken_promise)).

Lemma reader_appends_broken id (h : t (Stream:=Stream)) :
  createAttachmentReader id h = (length h, h ++ [Broken broken_promise]).
Proof.
  unfold createAttachmentReader, AttachmentManager.abandon.
  rewrite lookup_app_r, Nat.sub_diag by lia. simpl.
  rewrite insert_app_r_alt, Nat.sub_diag by lia. done.
Qed.

Lemma step_all_broken c (h : t (Stream:=Stream)) :
  all_broken h -> all_broken (step h c) /\ (length h <= length (step h c))%nat.
Proof.
  intros Hb. destruct c as [id|id a|id]; [|done|done].
  change (step h (CreateAttachmentReader id)) with (createAttachmentReader id h).2.
  rewrite reader_appends_broken. simpl. split.
  - apply Forall_app. split; [done|]. by repeat constructor.
  - rewrite length_app. lia.
Qed.

Lemma run_all_broken cs (h : t (Stream:=Stream)) :
  all_broken h -> all_broken (run cs h) /\ (length h <= length (run cs h))%nat.
Proof.
  revert h. induction cs as [|c cs IH]; intros h Hb; [done|].
  destruct (step_all_broken c h Hb) as [Hb' Hl].
  destruct (IH _ Hb') as [Hb'' Hl']. split; [done|].
  change (run (c :: cs) h) with (run cs (step h c)). lia.
Qed.

(** X9. The mock never delivers an attachment: after any calls, the future
    that [createAttachmentReader] returns reports [broken_promise] at once
    and after any further calls, [createAttachment] included. *)
Theorem mock_reader_is_always_broken cs id cs' :
  let r := createAttachmentReader (Stream:=Stream) id (run cs []) in
  future_get r.2 r.1 = Raises broken_promise
  /\ future_get (run cs' r.2) r.1 = Raises broken_promise.
Proof.
  intros r. unfold r. clear r. rewrite reader_appends_broken. simpl.
  destruct (run_all_broken cs [] (List.Forall_nil _)) as [Hb _].
  assert (Hb1 : all_broken (run cs [] ++ [Broken broken_promise])).
  { apply Forall_app. split; [done|]. by repeat constructor. }
  destruct (run_all_broken cs' _ Hb1) as [Hb2 Hl].
  rewrite length_app in Hl. simpl in Hl.
  assert (Hget : forall h : t (Stream:=Stream), all_broken h ->
            (length (run cs []) < length h)%nat ->
            future_get h (length (run cs [])) = Raises broken_promise).
  { intros h Hh Hlt. unfold future_get.
    destruct (lookup_lt_is_Some_2 h _ Hlt) as [st Hst]. rewrite Hst.
    rewrite Forall_lookup in Hh. by rewrite (Hh _ _ Hst). }
  split; apply Hget; auto; rewrite ?length_app; simpl; lia.
Qed.

End Facts.

End MockAttachmentManagerFacts.

(** * Properties of the string helpers of CapabilityAgentTest.cpp *)

Module TestHelperFacts.
Import CapabilityAgentTest StringFacts.

Lemma index_bound n pattern s m :
  Stdlib.Strings.String.index n pattern s = Some m -> (m <= String.length s)%nat.
Proof.
  revert n m. induction s as [|c s IH]; intros n m;
    cbn [Stdlib.Strings.String.index String.length].
  - destruct n; [|done]. destruct pattern; [|done]. intros ?; simplify_eq; lia.
  - destruct n as [|n].
    + destruct (Stdlib.Strings.String.prefix pattern (String c s));
        [intros ?; simplify_eq; lia|].
      destruct (Stdlib.Strings.String.index 0 pattern s) as [k|] eqn:Hk; [|done].
      intros ?; simplify_eq. apply IH in Hk. lia.
    + destruct (Stdlib.Strings.String.index n pattern s) as [k|] eqn:Hk; [|done].
      intros ?; simplify_eq. apply IH in Hk. lia.
Qed.

Lemma substring_all s : substring 0 (String.length s) s = s.
Proof. induction s as [|c s IH]; simpl; [done|]. by rewrite IH. Qed.

Lemma substring_split m s :
  (m <= String.length s)%nat ->
  substring 0 m s +:+ substring m (String.length s - m) s = s.
Proof.
  revert m. induction s as [|c s IH]; intros m Hm; simpl in Hm.
  - by replace m with 0%nat by lia.
  - destruct m as [|m]; simpl.
    + by rewrite substring_all.
    + rewrite append_cons. by rewrite IH by lia.
Qed.

Lemma substring_prefix_length m s :
  (m <= String.length s)%nat -> String.length (substring 0 m s) = m.
Proof.
  revert m. induction s as [|c s IH]; intros m Hm; simpl in Hm.
  - by replace m with 0%nat by lia.
  - destruct m as [|m]; simpl; [done|]. by rewrite IH by lia.
Qed.

Lemma substring_of_suffix m k s :
  substring 0 k (substring m (String.length s - m) s) = substring m k s.
Proof.
  revert m. induction s as [|c s IH]; intros m.
  - by destruct m, k.
  - destruct m as [|m].
    + by rewrite Nat.sub_0_r, substring_all.
    + simpl. apply IH.
Qed.

(** X10. [findStringFromStart] and [findStringTillEnd] cut the search string
    at the first occurrence of the pattern: the two results put together are
    the search string again, the first one ends where the pattern is found,
    the second one begins with the pattern, and the pattern starts nowhere
    before. When the pattern is not found both results are empty, and a
    pattern that is not empty then starts nowhere in the search string. *)
Theorem findString_cuts_at_first_occurrence pattern searchString :
  match find pattern searchString (Some O) with
  | Some m =>
      findStringFromStart pattern searchString
        +:+ findStringTillEnd pattern searchString (Some O) = searchString
      /\ String.length (findStringFromStart pattern searchString) = m
      /\ Stdlib.Strings.String.prefix pattern
           (findStringTillEnd pattern searchString (Some O)) = true
      /\ forall k, (k < m)%nat ->
           substring k (String.length pattern) searchString ≠ pattern
  | None =>
      findStringFromStart pattern searchString = EmptyString
      /\ findStringTillEnd pattern searchString (Some O) = EmptyString
      /\ (pattern ≠ EmptyString ->
          forall k, substring k (String.length pattern) searchString ≠ pattern)
  end.
Proof.
  unfold findStringFromStart, findStringTillEnd.
  destruct (find pattern searchString (Some O)) as [m|] eqn:Hfind; simpl in Hfind.
  - pose proof (index_bound _ _ _ _ Hfind) as Hm.
    repeat split.
    + by apply substring_split.
    + by apply substring_prefix_length.
    + apply Stdlib.Strings.String.prefix_correct. rewrite substring_of_suffix.
      by eapply index_correct1.
    + intros k Hk. eapply index_correct2; [exact Hfind|lia|done].
  - repeat split. intros Hne k.
    eapply index_correct3; [exact Hfind|done|lia].
Qed.

End TestHelperFacts.

(** * Properties of the Kitt.ai key word detector *)

Module KittAiKeyWordDetectorFacts.
Import KittAiKeyWordDetector StringFacts.

Lemma append_nil_r (s : string) : s +:+ EmptyString = s.
Proof. induction s as [|c s IH]; [done|]. by rewrite append_cons, IH. Qed.

Lemma wrap32_small z : 0 <= z < 2 ^ 32 -> wrap32 z = z.
Proof. intros Hz. unfold wrap32. by apply Z.mod_small. Qed.

Section Construction.

Context {Sensitivity : Type}.
Variable show_sensitivity : Sensitivity -> string.
Variable size_modulus : Z.

Local Abbreviation configure := (configure show_sensitivity size_modulus).
Local Abbreviation construct := (construct show_sensitivity size_modulus).
Local Abbreviation comma_separated := (Stdlib.Strings.String.concat KITT_DELIMITER).

Lemma configure_keywords size i rest acc r :
  0 <= i -> i + Z.of_nat (length rest) < 2 ^ 32 ->
  (configure size i rest acc).2 !! r
  = if decide (i < r <= i + Z.of_nat (length rest))
    then keyword <$> rest !! Z.to_nat (r - i - 1)
    else acc.2 !! r.
Proof.
  revert i acc. induction rest as [|c rest IH]; intros i acc Hi Hlen.
  - simpl. case_decide; [lia|done].
  - cbn [KittAiKeyWordDetector.configure length] in *.
    rewrite wrap32_small by lia. rewrite IH by lia. simpl.
    destruct (decide (r = i + 1)) as [->|Hne].
    + rewrite decide_False by lia. rewrite decide_True by lia.
      rewrite lookup_insert_eq. by replace (i + 1 - i - 1) with 0 by lia.
    + rewrite lookup_insert_ne by done.
      case_decide; case_decide; try lia; [|done].
      replace (Z.to_nat (r - i - 1)) with (S (Z.to_nat (r - (i + 1) - 1))) by lia.
      done.
Qed.

Lemma configure_strings size i rest acc :
  0 <= i -> i + Z.of_nat (length rest) = size ->
  size < 2 ^ 32 -> 2 ^ 32 <= size_modulus ->
  (configure size i rest acc).1
  = (acc.1.1 +:+ comma_separated (modelFilePath <$> rest),
     acc.1.2 +:+ comma_separated ((fun c => show_sensitivity (sensitivity c)) <$> rest)).
Proof.
  revert i acc. induction rest as [|c rest IH]; intros i [[paths sens] kws] Hi Hsize Hlt HM.
  - simpl. by rewrite !append_nil_r.
  - cbn [KittAiKeyWordDetector.configure length] in *.
    rewrite wrap32_small by lia.
    assert (Hmod : (size - 1) mod size_modulus = size - 1)
      by (apply Z.mod_small; lia).
    rewrite Hmod. destruct rest as [|c' rest].
    + rewrite bool_decide_eq_true_2 by (simpl in Hsize; lia). simpl. done.
    + rewrite bool_decide_eq_false_2 by (simpl in Hsize; lia).
      rewrite IH by (simpl in *; lia). cbn [fst snd].
      change (modelFilePath <$> c :: c' :: rest)
        with (modelFilePath c :: (modelFilePath <$> c' :: rest)).
      change ((fun c => show_sensitivity (sensitivity c)) <$> c :: c' :: rest)
        with (show_sensitivity (sensitivity c)
              :: ((fun c => show_sensitivity (sensitivity c)) <$> c' :: rest)).
      cbn [Stdlib.Strings.String.concat fmap list_fmap].
      by rewrite !append_assoc.
Qed.

(** X11. For fewer than 2^32 configurations, the constructor files the
    key word of the configuration at position r (counted from 1) under the
    detection result r, for every position, and nothing under any other
    detection result. *)
Theorem keywords_by_detection_result sampleRate configurations ms r :
  Z.of_nat (length configurations) < 2 ^ 32 ->
  m_detectionResultsToKeyWords (construct sampleRate configurations ms) !! r
  = if decide (1 <= r <= Z.of_nat (length configurations))
    then keyword <$> configurations !! Z.to_nat (r - 1)
    else None.
Proof.
  intros Hlen. unfold KittAiKeyWordDetector.construct. simpl.
  rewrite configure_keywords by lia. simpl.
  replace (r - 0 - 1) with (r - 1) by lia.
  case_decide; case_decide; try lia; done.
Qed.

(** X12. For fewer than 2^32 configurations (and a [size_t] of at least 32
    bits), the two strings the constructor hands to the engine are the model
    file paths, and the sensitivities as the stream writes them, each in the
    order of the configurations and separated by single commas, with no comma
    in front or at the end; both are empty when there is no configuration. *)
Theorem engine_arguments_comma_separated sampleRate configurations ms :
  Z.of_nat (length configurations) < 2 ^ 32 ->
  2 ^ 32 <= size_modulus ->
  modelPaths (construct sampleRate configurations ms)
  = comma_separated (modelFilePath <$> configurations)
  /\ sensitivities (construct sampleRate configurations ms)
     = comma_separated
         ((fun c => show_sensitivity (sensitivity c)) <$> configurations).
Proof.
  intros Hlen HM. unfold KittAiKeyWordDetector.construct. simpl.
  rewrite configure_strings by lia. done.
Qed.

(** X13. When the sample rate and the milliseconds per iteration are not
    negative and the product below fits [size_t], [m_maxSamplesPerPush] is
    the whole kilohertz of the rate times the milliseconds, the division
    coming first and being truncated. A thousand times this number and the
    rate's remainder modulo 1000 times the milliseconds make up the rate
    times the milliseconds; so against the whole samples that the rate
    delivers in these milliseconds, the rate times the milliseconds divided
    by 1000, a push is short by the rate's remainder modulo 1000 times the
    milliseconds, divided by 1000 (2 samples at 44100 Hz and 20 ms). A rate
    below 1000 Hz gives pushes of no sample at all. *)
Theorem samples_per_push_whole_kilohertz sampleRate configurations ms :
  0 <= sampleRate -> 0 <= ms ->
  (sampleRate / HERTZ_PER_KILOHERTZ) * ms < size_modulus ->
  let n := m_maxSamplesPerPush (construct sampleRate configurations ms) in
  n = (sampleRate / 1000) * ms
  /\ 1000 * n + (sampleRate mod 1000) * ms = sampleRate * ms
  /\ sampleRate * ms / 1000 - n = (sampleRate mod 1000) * ms / 1000
  /\ (sampleRate < 1000 -> n = 0).
Proof.
  intros Hr Hms Hfit n. unfold n, KittAiKeyWordDetector.construct. simpl.
  unfold HERTZ_PER_KILOHERTZ in *.
  assert (Hq : 0 <= sampleRate / 1000) by (apply Z.div_pos; lia).
  rewrite Z.mod_small by nia.
  pose proof (Z.div_mod sampleRate 1000 ltac:(lia)) as Hdm.
  split; [done|]. split; [nia|]. split.
  - replace (sampleRate * ms)
      with (sampleRate / 1000 * ms * 1000 + sampleRate mod 1000 * ms) by nia.
    rewrite Z.div_add_l by lia. lia.
  - intros Hlt. rewrite Z.div_small by lia. lia.
Qed.

End Construction.

Section Creation.

Context {Encoding Endianness Sensitivity : Type}.
Context `{EqDecision Encoding} `{EqDecision Endianness}.
Variable LPCM : Encoding.
Variable LITTLE : Endianness.
Variable show_sensitivity : Sensitivity -> string.
Variable size_modulus : Z.

Local Abbreviation isAudioFormatCompatibleWithKittAi :=
  (isAudioFormatCompatibleWithKittAi LPCM LITTLE).
Local Abbreviation create := (create LPCM LITTLE show_sensitivity size_modulus).

Lemma compatible_iff engine (audioFormat : AudioFormat Encoding Endianness) :
  let r := isAudioFormatCompatibleWithKittAi engine audioFormat in
  (r.1 = true <->
   numChannels audioFormat = NumChannels engine
   /\ sampleRateHz audioFormat = SampleRate engine
   /\ sampleSizeInBits audioFormat = BitsPerSample engine
   /\ endianness audioFormat = LITTLE
   /\ encoding audioFormat = LPCM)
  /\ (r.1 = true -> r.2 = [])
  /\ (r.1 = false -> exists message, r.2 = [message]).
Proof.
  unfold KittAiKeyWordDetector.isAudioFormatCompatibleWithKittAi,
    KITT_AI_COMPATIBLE_ENDIANNESS, KITT_AI_COMPATIBLE_ENCODING.
  repeat case_bool_decide; simpl; repeat split; try done; eauto; try tauto;
    intros (? & ? & ? & ? & ?); done.
Qed.

(** X14. [create] returns a detector exactly when the stream is valid, no
    byte swapping is required, the audio format has the engine's number of
    channels, sample rate and bits per sample, is little endian and LPCM
    encoded, and the stream reader could be created. The detection thread is
    started exactly in that case, and nothing is logged exactly in that case:
    every refusal logs at least one message and starts no thread. *)
Theorem create_returns_detector_iff streamValid byteswappingRequired engine
    (audioFormat : AudioFormat Encoding Endianness) readerCreated
    (configurations : list (KittAiConfiguration Sensitivity)) ms :
  let o := create streamValid byteswappingRequired engine audioFormat
             readerCreated configurations ms in
  (is_Some (result o) <->
   streamValid = true /\ byteswappingRequired = false
   /\ numChannels audioFormat = NumChannels engine
   /\ sampleRateHz audioFormat = SampleRate engine
   /\ sampleSizeInBits audioFormat = BitsPerSample engine
   /\ endianness audioFormat = LITTLE
   /\ encoding audioFormat = LPCM
   /\ readerCreated = true)
  /\ (thread_started o = true <-> is_Some (result o))
  /\ (logged o = [] <-> is_Some (result o)).
Proof.
  pose proof (compatible_iff engine audioFormat) as Hc. cbv zeta in Hc.
  unfold KittAiKeyWordDetector.create, init.
  destruct (isAudioFormatCompatibleWithKittAi engine audioFormat) as [ok messages].
  simpl in Hc. destruct Hc as (Hiff & Hnone & Hsome).
  destruct streamValid, byteswappingRequired; simpl;
    try (repeat split; try done; try (by intros [? ?]);
         intros (? & ? & _); done).
  destruct ok; simpl.
  - rewrite (Hnone eq_refl). destruct readerCreated; simpl.
    + repeat split; try done; try by eexists. all: by apply Hiff.
    + repeat split; try done; try (by intros [? ?]).
      intros (_ & _ & _ & _ & _ & _ & _ & ?). done.
  - destruct (Hsome eq_refl) as [message ->]. simpl.
    repeat split; try done; try (by intros [? ?]).
    intros (_ & _ & H1 & H2 & H3 & H4 & H5 & _).
    assert (false = true) by (by apply Hiff). done.
Qed.

End Creation.

(** *** The detection loop *)

Local Abbreviation ACTIVE_ := (NotifyKeyWordDetectorStateObservers ACTIVE).
Local Abbreviation ERROR_ := (NotifyKeyWordDetectorStateObservers ERROR).

Lemma iterate_stop keyWords x rest :
  stops keyWords x = true ->
  iterate keyWords (x :: rest) = (stopping_calls x, Finished).
Proof.
  unfold stops, stopping_calls. destruct x as [sd err w r tl]. simpl.
  destruct sd, err; simpl; try done.
  destruct (0 <? w); simpl; [|done].
  destruct (0 <? r) eqn:Hr; simpl.
  - rewrite bool_decide_eq_true. by intros ->.
  - unfold KITT_AI_ERROR_DETECTION_RESULT, KITT_AI_SILENCE_DETECTION_RESULT,
      KITT_AI_NO_DETECTION_RESULT.
    repeat case_bool_decide; simpl; try done; lia.
Qed.

Lemma iterate_pass keyWords x rest :
  stops keyWords x = false ->
  iterate keyWords (x :: rest)
  = (passing_calls keyWords x ++ (iterate keyWords rest).1,
     (iterate keyWords rest).2).
Proof.
  unfold stops, passing_calls, reported. destruct x as [sd err w r tl]. simpl.
  destruct (iterate keyWords rest) as [acts st].
  destruct sd, err; simpl; try done.
  destruct (0 <? w); simpl; [|done].
  destruct (0 <? r) eqn:Hr; simpl.
  - by destruct (keyWords !! r) eqn:Hk.
  - unfold KITT_AI_ERROR_DETECTION_RESULT, KITT_AI_SILENCE_DETECTION_RESULT,
      KITT_AI_NO_DETECTION_RESULT.
    repeat case_bool_decide; simpl; try done; lia.
Qed.

Lemma iterate_passing keyWords inputs rest :
  Forall (fun x => stops keyWords x = false) inputs ->
  iterate keyWords (inputs ++ rest)
  = (concat (passing_calls keyWords <$> inputs) ++ (iterate keyWords rest).1,
     (iterate keyWords rest).2).
Proof.
  induction 1 as [|x inputs Hx _ IH].
  - simpl. by destruct (iterate keyWords rest).
  - rewrite <- app_comm_cons, iterate_pass, IH by done.
    simpl. by rewrite <- app_assoc.
Qed.

Lemma passing_calls_quiet keyWords x a :
  In a (passing_calls keyWords x) -> a ≠ ERROR_ /\ a ≠ CloseReader.
Proof.
  unfold passing_calls. destruct (0 <? wordsRead x); simpl.
  - destruct (reported keyWords x) as [[k e]|]; simpl;
      intuition (subst; discriminate).
  - intuition (subst; discriminate).
Qed.

Lemma passing_calls_keyWords keyWords x :
  stops keyWords x = false ->
  keyWordNotifications (passing_calls keyWords x)
  = option_list (reported keyWords x).
Proof.
  unfold stops, passing_calls, reported. destruct x as [sd err w r tl]. simpl.
  destruct sd, err; simpl; try done;
    destruct (0 <? w); simpl; try done.
  destruct (0 <? r); simpl; [|done]. by destruct (keyWords !! r).
Qed.

Lemma keyWordNotifications_app l1 l2 :
  keyWordNotifications (l1 ++ l2)
  = keyWordNotifications l1 ++ keyWordNotifications l2.
Proof. unfold keyWordNotifications. apply omap_app. Qed.

Lemma concat_passing_quiet keyWords inputs a :
  In a (concat (passing_calls keyWords <$> inputs)) ->
  a ≠ ERROR_ /\ a ≠ CloseReader.
Proof.
  induction inputs as [|x inputs IH]; simpl; [done|].
  intros [H|H]%in_app_or; [by eapply passing_calls_quiet|by apply IH].
Qed.

Lemma concat_passing_keyWords keyWords inputs :
  Forall (fun x => stops keyWords x = false) inputs ->
  keyWordNotifications (concat (passing_calls keyWords <$> inputs))
  = omap (reported keyWords) inputs.
Proof.
  induction 1 as [|x inputs Hx _ IH]; [done|].
  change (concat (passing_calls keyWords <$> x :: inputs))
    with (passing_calls keyWords x ++ concat (passing_calls keyWords <$> inputs)).
  rewrite keyWordNotifications_app, IH, passing_calls_keyWords by done.
  simpl. by destruct (reported keyWords x).
Qed.

Lemma stopping_calls_keyWords x : keyWordNotifications (stopping_calls x) = [].
Proof.
  unfold stopping_calls. by destruct (isShuttingDown x), (didErrorOccur x).
Qed.

(** Every run of iterations is a run of iterations that let the loop go on,
    followed either by nothing or by one that stops it. *)
Lemma first_stop keyWords (inputs : list iteration) :
  Forall (fun x => stops keyWords x = false) inputs
  \/ exists pre x post,
       inputs = pre ++ x :: post
       /\ Forall (fun x => stops keyWords x = false) pre
       /\ stops keyWords x = true.
Proof.
  induction inputs as [|x inputs IH]; [by left|].
  destruct (stops keyWords x) eqn:Hx.
  - right. exists [], x, inputs. by repeat split.
  - destruct IH as [IH|(pre & y & post & -> & Hpre & Hy)].
    + left. by constructor.
    + right. exists (x :: pre), y, post. repeat split; [|done]. by constructor.
Qed.

Lemma detectionLoop_passing keyWords pre :
  Forall (fun x => stops keyWords x = false) pre ->
  detectionLoop keyWords pre
  = (ACTIVE_ :: concat (passing_calls keyWords <$> pre), Running).
Proof.
  intros Hpre. unfold detectionLoop.
  pose proof (iterate_passing keyWords pre [] Hpre) as H.
  rewrite app_nil_r in H. rewrite H. simpl. by rewrite !app_nil_r.
Qed.

Lemma detectionLoop_stopping keyWords pre x post :
  Forall (fun x => stops keyWords x = false) pre ->
  stops keyWords x = true ->
  detectionLoop keyWords (pre ++ x :: post)
  = (ACTIVE_ :: concat (passing_calls keyWords <$> pre)
       ++ stopping_calls x ++ [CloseReader],
     Finished).
Proof.
  intros Hpre Hx. unfold detectionLoop.
  rewrite iterate_passing, iterate_stop by done. simpl.
  by rewrite <- app_assoc.
Qed.

(** X15. As long as no iteration stops the loop, [detectionLoop] keeps going
    and its calls are, after the first notification of ACTIVE, the calls of
    the iterations one after the other; the key words it reports are exactly
    those of the iterations with a positive detection result, in order. The
    first iteration that stops the loop (shutdown, a read error, a positive
    result without key word, or a negative result other than silence) ends
    it: its calls are the last before the reader is closed, and whatever would
    follow is never read. *)
Theorem detectionLoop_runs_to_first_stop keyWords pre :
  Forall (fun x => stops keyWords x = false) pre ->
  detectionLoop keyWords pre
  = (ACTIVE_ :: concat (passing_calls keyWords <$> pre), Running)
  /\ keyWordNotifications (detectionLoop keyWords pre).1
     = omap (reported keyWords) pre
  /\ forall x post,
       stops keyWords x = true ->
       detectionLoop keyWords (pre ++ x :: post)
       = (ACTIVE_ :: concat (passing_calls keyWords <$> pre)
            ++ stopping_calls x ++ [CloseReader],
          Finished)
       /\ keyWordNotifications (detectionLoop keyWords (pre ++ x :: post)).1
          = omap (reported keyWords) pre.
Proof.
  intros Hpre. pose proof (detectionLoop_passing keyWords pre Hpre) as H1.
  split; [done|]. split.
  { rewrite H1. simpl. by apply concat_passing_keyWords. }
  intros x post Hx.
  pose proof (detectionLoop_stopping keyWords pre x post Hpre Hx) as H2.
  split; [done|]. rewrite H2. simpl.
  rewrite !keyWordNotifications_app, concat_passing_keyWords by done.
  rewrite stopping_calls_keyWords. simpl. by rewrite app_nil_r.
Qed.

(** X16. Whatever the iterations, [detectionLoop] begins with the
    notification of ACTIVE. It closes the reader exactly when it is left,
    once, as its last call; and it notifies ERROR at most once, directly
    after a log message and directly before closing the reader. *)
Theorem detectionLoop_closes_once_after_error keyWords inputs :
  let r := detectionLoop keyWords inputs in
  exists calls,
    ~ In CloseReader calls
    /\ r.1 = ACTIVE_ :: calls
             ++ match r.2 with Finished => [CloseReader] | Running => [] end
    /\ (~ In ERROR_ calls
        \/ exists before message,
             calls = before ++ [Log message; ERROR_]
             /\ ~ In ERROR_ before /\ r.2 = Finished).
Proof.
  intros r. unfold r. clear r.
  destruct (first_stop keyWords inputs) as [Hall|(pre & x & post & -> & Hpre & Hx)].
  - rewrite (detectionLoop_passing keyWords inputs Hall).
    exists (concat (passing_calls keyWords <$> inputs)). simpl.
    split; [|split; [by rewrite app_nil_r|left]];
      intros Hin; by destruct (concat_passing_quiet _ _ _ Hin).
  - rewrite (detectionLoop_stopping keyWords pre x post Hpre Hx).
    exists (concat (passing_calls keyWords <$> pre) ++ stopping_calls x). simpl.
    assert (Hq : forall a, In a (concat (passing_calls keyWords <$> pre)) ->
                   a ≠ ERROR_ /\ a ≠ CloseReader)
      by (intros a; apply concat_passing_quiet).
    split; [|split; [by rewrite <- app_assoc|]].
    + intros [Hin|Hin]%in_app_or; [by destruct (Hq _ Hin)|].
      unfold stopping_calls in Hin.
      destruct (isShuttingDown x), (didErrorOccur x); simpl in Hin;
        intuition discriminate.
    + unfold stopping_calls.
      destruct (isShuttingDown x); [|destruct (didErrorOccur x)].
      * left. rewrite app_nil_r. intros Hin. by destruct (Hq _ Hin).
      * left. intros [Hin|Hin]%in_app_or; [by destruct (Hq _ Hin)|].
        simpl in Hin. intuition discriminate.
      * right.
        exists (concat (passing_calls keyWords <$> pre)
                ++ [ReadFromStream; ACTIVE_; RunDetection (wordsRead x)]).
        eexists. split; [by rewrite <- app_assoc|]. split; [|done].
        intros [Hin|Hin]%in_app_or; [by destruct (Hq _ Hin)|].
        simpl in Hin. intuition discriminate.
Qed.

(** X17. For fewer than 2^32 configurations and an iteration in which words
    were read and the engine returned a positive result r: when r is at most
    the number of configurations the loop goes on and reports the key word of
    the configuration at position r (counted from 1); when r is greater, the
    loop logs that it cannot get the key word, notifies ERROR, closes the
    reader and is left. *)
Theorem positive_detection_result {Sensitivity : Type}
    (show_sensitivity : Sensitivity -> string) (size_modulus sampleRate : Z)
    (configurations : list (KittAiConfiguration Sensitivity)) (ms w r tl : Z)
    (post : list iteration) :
  Z.of_nat (length configurations) < 2 ^ 32 ->
  0 < w -> 0 < r ->
  let keyWords :=
    m_detectionResultsToKeyWords
      (construct show_sensitivity size_modulus sampleRate configurations ms) in
  let x := Iteration false false w r tl in
  (r <= Z.of_nat (length configurations) ->
   stops keyWords x = false
   /\ exists c, configurations !! Z.to_nat (r - 1) = Some c
                /\ reported keyWords x = Some (keyword c, tl))
  /\ (Z.of_nat (length configurations) < r ->
      detectionLoop keyWords (x :: post)
      = ([ACTIVE_; ReadFromStream; ACTIVE_; RunDetection w;
          Log "Unable to get keyword that was detected"; ERROR_; CloseReader],
         Finished)).
Proof.
  intros Hlen Hw Hr keyWords x.
  assert (Hk : keyWords !! r
               = if decide (1 <= r <= Z.of_nat (length configurations))
                 then keyword <$> configurations !! Z.to_nat (r - 1)
                 else None).
  { unfold keyWords, KittAiKeyWordDetector.construct. simpl.
    rewrite configure_keywords by lia. simpl.
    replace (r - 0 - 1) with (r - 1) by lia.
    case_decide; case_decide; try lia; done. }
  apply Z.ltb_lt in Hw, Hr. split.
  - intros Hle. rewrite decide_True in Hk by lia.
    destruct (lookup_lt_is_Some_2 configurations (Z.to_nat (r - 1))) as [c Hc];
      [lia|].
    rewrite Hc in Hk. simpl in Hk.
    unfold stops, reported, x. simpl. rewrite Hw, Hr, Hk. simpl.
    split; [done|]. by exists c.
  - intros Hgt. rewrite decide_False in Hk by lia.
    unfold detectionLoop, x. simpl. by rewrite Hw, Hr, Hk.
Qed.

(** *** The theorems at concrete detectors *)

(** Two configurations, with sensitivities given as their text. *)
Local Abbreviation two_models :=
  [Configuration "alexa.umdl" "ALEXA" "0.6";
   Configuration "stop.umdl" "STOP" "0.5"].

Lemma keywords_by_detection_result_witness :
  Z.of_nat (length two_models) < 2 ^ 32
  /\ m_detectionResultsToKeyWords
       (construct (fun t : string => t) (2 ^ 64) 16000 two_models 20) !! 2
     = Some "STOP".
Proof.
  assert (H : Z.of_nat (length two_models) < 2 ^ 32) by reflexivity.
  split; [exact H|].
  exact (keywords_by_detection_result (fun t : string => t) (2 ^ 64)
           16000 two_models 20 2 H).
Defined.

Lemma engine_arguments_comma_separated_witness :
  Z.of_nat (length two_models) < 2 ^ 32
  /\ 2 ^ 32 <= 2 ^ 64
  /\ modelPaths (construct (fun t : string => t) (2 ^ 64) 16000 two_models 20)
     = "alexa.umdl,stop.umdl"
  /\ sensitivities (construct (fun t : string => t) (2 ^ 64) 16000 two_models 20)
     = "0.6,0.5".
Proof.
  assert (H1 : Z.of_nat (length two_models) < 2 ^ 32) by reflexivity.
  assert (H2 : 2 ^ 32 <= 2 ^ 64) by (vm_compute; discriminate).
  split; [exact H1|]. split; [exact H2|].
  exact (engine_arguments_comma_separated (fun t : string => t) (2 ^ 64)
           16000 two_models 20 H1 H2).
Defined.

Lemma samples_per_push_whole_kilohertz_witness :
  0 <= 44100 /\ 0 <= 20
  /\ (44100 / HERTZ_PER_KILOHERTZ) * 20 < 2 ^ 64
  /\ m_maxSamplesPerPush
       (construct (fun t : string => t) (2 ^ 64) 44100 two_models 20) = 880
  /\ 1000 * 880 + (44100 mod 1000) * 20 = 44100 * 20
  /\ 44100 * 20 / 1000
     - m_maxSamplesPerPush
         (construct (fun t : string => t) (2 ^ 64) 44100 two_models 20)
     = (44100 mod 1000) * 20 / 1000
  /\ (44100 mod 1000) * 20 / 1000 = 2.
Proof.
  assert (H1 : 0 <= 44100) by (vm_compute; discriminate).
  assert (H2 : 0 <= 20) by (vm_compute; discriminate).
  assert (H3 : (44100 / HERTZ_PER_KILOHERTZ) * 20 < 2 ^ 64) by reflexivity.
  repeat (split; [assumption|]).
  destruct (samples_per_push_whole_kilohertz (fun t : string => t) (2 ^ 64)
              44100 two_models 20 H1 H2 H3) as (Hn & Hrem & Hshort & _).
  split; [exact Hn|]. split; [reflexivity|]. split; [exact Hshort|reflexivity].
Defined.

Lemma detectionLoop_runs_to_first_stop_witness :
  let keyWords : gmap Z string := {[1 := "ALEXA"]} in
  let pre := [Iteration false false 320 0 0; Iteration false false 0 0 0;
              Iteration false false 320 1 640; Iteration false false 320 (-2) 0] in
  Forall (fun x => stops keyWords x = false) pre
  /\ (detectionLoop keyWords pre).2 = Running
  /\ keyWordNotifications (detectionLoop keyWords pre).1 = [("ALEXA", 640)]
  /\ detectionLoop keyWords
       (pre ++ Iteration false false 320 (-1) 0 :: [Iteration false false 320 1 0])
     = detectionLoop keyWords (pre ++ [Iteration false false 320 (-1) 0]).
Proof.
  intros keyWords pre.
  assert (H : Forall (fun x => stops keyWords x = false) pre)
    by (repeat constructor).
  split; [exact H|].
  destruct (detectionLoop_runs_to_first_stop keyWords pre H) as (H1 & H2 & H3).
  split; [by rewrite H1|]. split; [exact H2|].
  destruct (H3 (Iteration false false 320 (-1) 0)
              [Iteration false false 320 1 0] eq_refl) as [-> _].
  by destruct (H3 (Iteration false false 320 (-1) 0) [] eq_refl) as [-> _].
Defined.

Lemma positive_detection_result_witness :
  Z.of_nat (length two_models) < 2 ^ 32
  /\ 0 < 320 /\ 0 < 3
  /\ detectionLoop
       (m_detectionResultsToKeyWords
          (construct (fun t : string => t) (2 ^ 64) 16000 two_models 20))
       [Iteration false false 320 3 0]
     = ([ACTIVE_; ReadFromStream; ACTIVE_; RunDetection 320;
         Log "Unable to get keyword that was detected"; ERROR_; CloseReader],
        Finished).
Proof.
  assert (H1 : Z.of_nat (length two_models) < 2 ^ 32) by reflexivity.
  assert (H2 : 0 < 320) by reflexivity.
  assert (H3 : 0 < 3) by reflexivity.
  repeat (split; [assumption|]).
  destruct (positive_detection_result (fun t : string => t) (2 ^ 64) 16000
              two_models 20 320 3 0 [] H1 H2 H3) as [_ H].
  apply H. reflexivity.
Defined.

End KittAiKeyWordDetectorFacts.
